(** * gdwg::graph<N, E>: a shallow embedding of gdwg_graph.h

    The container is embedded at N = E = int, the instantiation used by the
    test suite (gdwg_graph.test.cpp).  Node and weight values are only ever
    compared and printed, never computed with, so an int is a [Z].

    - [std::set<N>] is a [gset Z]; walking it visits the values in ascending
      order ([set_iter]).
    - [std::vector<std::unique_ptr<edge>>] is a [list edge]: every edge is
      owned by exactly one slot, so the vector is the sequence of its values.
    - a member function that can throw returns an [outcome]; a non-const one
      also returns the graph it leaves behind, whether it returned or threw. *)

From Stdlib Require Import Ascii.
From stdpp Require Import gmap strings list sorting pretty.

Local Open Scope Z_scope.
Local Set Warnings "-clear-no-such-hyp".

(** ** The standard algorithms the container calls *)

Section std_algorithms.
Context {A : Type}.

(** [std::find_if]: the position of the first element satisfying [p],
    the size of the sequence (its end) when there is none. *)
Fixpoint std_find_if (p : A → bool) (l : list A) : nat :=
  match l with
  | [] => 0%nat
  | x :: l' => if p x then 0%nat else S (std_find_if p l')
  end.

(** [std::any_of]. *)
Definition std_any_of (p : A → bool) (l : list A) : bool := existsb p l.

(** [std::remove_if] followed by [erase(it, end)]: the elements kept, in
    their order.  The iterator [std::remove_if] returns is the length of
    this list. *)
Definition std_remove_if (p : A → bool) (l : list A) : list A :=
  filter (λ x, p x = false) l.

(** [std::sort] with a comparator.  The standard leaves the relative order
    of equivalent elements open; [std_sort_unique] below shows that for
    [edge_compare] the result does not depend on that choice. *)
Fixpoint sorted_insert (comp : A → A → bool) (x : A) (l : list A) : list A :=
  match l with
  | [] => [x]
  | y :: l' => if comp x y then x :: y :: l' else y :: sorted_insert comp x l'
  end.

Definition std_sort (comp : A → A → bool) (l : list A) : list A :=
  foldr (sorted_insert comp) [] l.

(** [std::unique] followed by [erase(it, end)]: of every run of consecutive
    elements equal to the last one kept, only the first is kept. *)
Fixpoint unique_from (eq : A → A → bool) (kept : A) (l : list A) : list A :=
  match l with
  | [] => []
  | y :: l' => if eq kept y then unique_from eq kept l'
               else y :: unique_from eq y l'
  end.

Definition std_unique (eq : A → A → bool) (l : list A) : list A :=
  match l with
  | [] => []
  | x :: l' => x :: unique_from eq x l'
  end.
End std_algorithms.

(** [operator<] of [std::optional]: an empty optional is below every value. *)
Definition optional_lt (lhs rhs : option Z) : bool :=
  match rhs, lhs with
  | None, _ => false
  | Some _, None => true
  | Some r, Some l => l <? r
  end.

(** [operator==] of [std::optional]. *)
Definition optional_eq (lhs rhs : option Z) : bool :=
  match lhs, rhs with
  | Some l, Some r => l =? r
  | None, None => true
  | _, _ => false
  end.

(** Walking a [std::set] from [begin()] to [end()]. *)
Definition set_iter (s : gset Z) : list Z := merge_sort Z.le (elements s).

(** ** Edges *)

Inductive edge : Type :=
  | weighted_edge (src dst : Z) (_weight : Z)
  | unweighted_edge (src dst : Z).

Global Instance edge_eq_dec : EqDecision edge.
Proof. solve_decision. Defined.

Definition src (e : edge) : Z :=
  match e with weighted_edge s _ _ | unweighted_edge s _ => s end.

Definition dst (e : edge) : Z :=
  match e with weighted_edge _ d _ | unweighted_edge _ d => d end.

(** The assignments [edge->src = v] and [edge->dst = v]. *)
Definition set_src (v : Z) (e : edge) : edge :=
  match e with
  | weighted_edge _ d w => weighted_edge v d w
  | unweighted_edge _ d => unweighted_edge v d
  end.

Definition set_dst (v : Z) (e : edge) : edge :=
  match e with
  | weighted_edge s _ w => weighted_edge s v w
  | unweighted_edge s _ => unweighted_edge s v
  end.

Definition is_weighted (e : edge) : bool :=
  match e with weighted_edge _ _ _ => true | unweighted_edge _ _ => false end.

Definition get_weight (e : edge) : option Z :=
  match e with weighted_edge _ _ w => Some w | unweighted_edge _ _ => None end.

Definition get_nodes (e : edge) : Z * Z := (src e, dst e).

Definition clone (e : edge) : edge :=
  match e with
  | weighted_edge s d w => weighted_edge s d w
  | unweighted_edge s d => unweighted_edge s d
  end.

(** [edge::operator==]: the dynamic cast succeeds exactly when [other] is of
    the same class as [this]. *)
Definition edge_eq (this other : edge) : bool :=
  match this, other with
  | weighted_edge s d w, weighted_edge s' d' w' =>
      (s =? s') && (d =? d') && (w =? w')
  | unweighted_edge s d, unweighted_edge s' d' => (s =? s') && (d =? d')
  | _, _ => false
  end.

Definition nl : string := String "010"%char EmptyString.

Definition print_edge (e : edge) : string :=
  match e with
  | weighted_edge s d w =>
      ((((pretty s +:+ " -> ") +:+ pretty d) +:+ " | W | ") +:+ pretty w)
  | unweighted_edge s d => (((pretty s +:+ " -> ") +:+ pretty d) +:+ " | U")
  end.

(** [graph::edge_compare]. *)
Definition edge_compare (lhs rhs : edge) : bool :=
  if negb (src lhs =? src rhs) then src lhs <? src rhs
  else if negb (dst lhs =? dst rhs) then dst lhs <? dst rhs
  else if negb (eqb (is_weighted lhs) (is_weighted rhs))
       then negb (is_weighted lhs)
  else if is_weighted lhs && is_weighted rhs
       then optional_lt (get_weight lhs) (get_weight rhs)
  else false.

(** ** The graph *)

Record graph : Type := { _nodes : gset Z; _edges : list edge }.

Inductive outcome (A : Type) : Type :=
  | Returned (a : A)
  | Thrown (what : string).
Arguments Returned {A} a.
Arguments Thrown {A} what.

Definition insert_edge_what : string :=
  "Cannot call gdwg::graph<N, E>::insert_edge when either src or dst node does not exist".
Definition replace_node_what : string :=
  "Cannot call gdwg::graph<N, E>::replace_node on a node that doesn't exist".
Definition merge_replace_node_what : string :=
  "Cannot call gdwg::graph<N, E>::merge_replace_node on old or new data if they don't exist in the graph".
Definition erase_edge_what : string :=
  "Cannot call gdwg::graph<N, E>::erase_edge on src or dst if they don't exist in the graph".
Definition is_connected_what : string :=
  "Cannot call gdwg::graph<N, E>::is_connected if src or dst node don't exist in the graph".
Definition edges_what : string :=
  "Cannot call gdwg::graph<N, E>::edges if src or dst node don't exist in the graph".
Definition connections_what : string :=
  "Cannot call gdwg::graph<N, E>::connections if src doesn't exist in the graph".

(** The default constructor. *)
Definition graph_default : graph := {| _nodes := ∅; _edges := [] |}.

(** [graph(std::initializer_list<N> il) : _nodes(il)]. *)
Definition graph_of_initializer_list (il : list Z) : graph :=
  {| _nodes := list_to_set il; _edges := [] |}.

(** [graph(InputIt first, InputIt last)]: the range is the list of the values
    it yields. *)
Definition graph_of_range (range : list Z) : graph :=
  {| _nodes := fold_left (λ nodes v, {[ v ]} ∪ nodes) range ∅; _edges := [] |}.

Definition is_node (g : graph) (value : Z) : bool :=
  bool_decide (value ∈ _nodes g).


Definition nodes (g : graph) : list Z := set_iter (_nodes g).

Definition insert_node (value : Z) (g : graph) : bool * graph :=
  if bool_decide (value ∈ _nodes g) then (false, g)
  else (true, {| _nodes := {[ value ]} ∪ _nodes g; _edges := _edges g |}).

Definition make_edge (src dst : Z) (weight : option Z) : edge :=
  match weight with
  | Some w => weighted_edge src dst w
  | None => unweighted_edge src dst
  end.

Definition insert_edge (src dst : Z) (weight : option Z) (g : graph)
  : outcome bool * graph :=
  if negb (is_node g src) || negb (is_node g dst) then
    (Thrown insert_edge_what, g)
  else
    let new_edge := make_edge src dst weight in
    if negb (std_find_if (λ edge, edge_eq edge new_edge) (_edges g)
             =? length (_edges g))%nat
    then (Returned false, g)
    else
      let pushed := _edges g ++ [new_edge] in
      (Returned true,
       {| _nodes := _nodes g; _edges := std_sort edge_compare pushed |}).

(** The body of the loop shared by [replace_node] and [merge_replace_node]. *)
Definition redirect (old_data new_data : Z) (e : edge) : edge :=
  let e := if src e =? old_data then set_src new_data e else e in
  if dst e =? old_data then set_dst new_data e else e.

Definition replace_node (old_data new_data : Z) (g : graph)
  : outcome bool * graph :=
  if negb (is_node g old_data) then (Thrown replace_node_what, g)
  else if is_node g new_data then (Returned false, g)
  else
    let edges := map (redirect old_data new_data) (_edges g) in
    let nodes := _nodes g ∖ {[ old_data ]} in
    let nodes := {[ new_data ]} ∪ nodes in
    (Returned true, {| _nodes := nodes; _edges := edges |}).

Definition merge_replace_node (old_data new_data : Z) (g : graph)
  : outcome unit * graph :=
  if negb (is_node g old_data) || negb (is_node g new_data) then
    (Thrown merge_replace_node_what, g)
  else
    let edges := map (redirect old_data new_data) (_edges g) in
    let nodes := _nodes g ∖ {[ old_data ]} in
    let edges := std_sort edge_compare edges in
    let edges := std_unique edge_eq edges in
    (Returned (), {| _nodes := nodes; _edges := edges |}).

Definition erase_node (value : Z) (g : graph) : bool * graph :=
  if negb (is_node g value) then (false, g)
  else
    let nodes := _nodes g ∖ {[ value ]} in
    let edges :=
      std_remove_if (λ edge, (src edge =? value) || (dst edge =? value))
                    (_edges g) in
    (true, {| _nodes := nodes; _edges := edges |}).

(** The predicate of [erase_edge] and [find]. *)
Definition edge_matches (src' dst' : Z) (weight : option Z) (e : edge) : bool :=
  if (src e =? src') && (dst e =? dst') then
    match weight with
    | Some _ => is_weighted e && optional_eq (get_weight e) weight
    | None => negb (is_weighted e)
    end
  else false.

Definition erase_edge (src dst : Z) (weight : option Z) (g : graph)
  : outcome bool * graph :=
  if negb (is_node g src) || negb (is_node g dst) then
    (Thrown erase_edge_what, g)
  else
    let kept := std_remove_if (edge_matches src dst weight) (_edges g) in
    if negb (length kept =? length (_edges g))%nat then
      (Returned true, {| _nodes := _nodes g; _edges := kept |})
    else (Returned false, g).

Definition clear (g : graph) : graph := {| _nodes := ∅; _edges := [] |}.

Definition is_connected (g : graph) (src' dst' : Z) : outcome bool :=
  if negb (is_node g src') || negb (is_node g dst') then
    Thrown is_connected_what
  else
    Returned (std_any_of (λ edge, (src edge =? src') && (dst edge =? dst'))
                         (_edges g)).

Definition edges (g : graph) (src' dst' : Z) : outcome (list edge) :=
  if negb (is_node g src') || negb (is_node g dst') then Thrown edges_what
  else
    let result :=
      fold_left (λ result edge,
                   if (src edge =? src') && (dst edge =? dst')
                   then result ++ [clone edge] else result)
                (_edges g) [] in
    Returned (std_sort edge_compare result).

Definition find (g : graph) (src dst : Z) (weight : option Z) : nat :=
  std_find_if (edge_matches src dst weight) (_edges g).

Definition connections (g : graph) (src' : Z) : outcome (list Z) :=
  if negb (is_node g src') then Thrown connections_what
  else
    let result : gset Z :=
      fold_left (λ result edge,
                   if src edge =? src' then {[ dst edge ]} ∪ result else result)
                (_edges g) ∅ in
    Returned (set_iter result).

(** Dereferencing the iterator at position [it]; [begin()] is 0 and [end()]
    is the size of the edge store. *)
Definition iterator_deref (g : graph) (it : nat) : option (Z * Z * option Z) :=
  e ← _edges g !! it; Some (src e, dst e, get_weight e).

(** The two loops of [operator==] that split an edge store into the vector of
    (src, dst) pairs and the vector of (src, dst, weight) tuples. *)
Definition split_edges (es : list edge)
  : list (Z * Z) * list (Z * Z * Z) :=
  fold_left
    (λ '(unweighted, weighted) edge,
       if is_weighted edge then
         match get_weight edge with
         | Some w => (unweighted, weighted ++ [(src edge, dst edge, w)])
         | None => (unweighted, weighted)
         end
       else (unweighted ++ [(src edge, dst edge)], weighted))
    es ([], []).

(** [graph::operator==]. *)
Definition graph_eq (this other : graph) : bool :=
  if negb (bool_decide (_nodes this = _nodes other))
     || negb (length (_edges this) =? length (_edges other))%nat
  then false
  else
    let '(this_edges, this_weighted_edges) := split_edges (_edges this) in
    let '(other_edges, other_weighted_edges) := split_edges (_edges other) in
    if negb (bool_decide (this_edges = other_edges))
       || negb (bool_decide (this_weighted_edges = other_weighted_edges))
    then false
    else true.

(** [operator<<]: the text appended to the stream [os]. *)
Definition print_node (g : graph) (os : string) (node : Z) : string :=
  let os := (os +:+ pretty node) +:+ (" (" +:+ nl) in
  let '(unweighted_edges, weighted_edges) :=
    fold_left
      (λ '(unweighted_edges, weighted_edges) edge,
         if src edge =? node then
           if is_weighted edge then
             (unweighted_edges,
              weighted_edges ++ [("  " +:+ print_edge edge) +:+ nl])
           else
             (unweighted_edges ++ [("  " +:+ print_edge edge) +:+ nl],
              weighted_edges)
         else (unweighted_edges, weighted_edges))
      (_edges g) ([], []) in
  let os := fold_left (λ os e, os +:+ e) unweighted_edges os in
  let os := fold_left (λ os e, os +:+ e) weighted_edges os in
  os +:+ (")" +:+ nl).

Definition print_graph (os : string) (g : graph) : string :=
  let os := os +:+ nl in
  fold_left (print_node g) (set_iter (_nodes g)) os.

(** A client that builds a graph through [insert_node] and [insert_edge]
    alone, the way the test cases do.  [None]: an [insert_edge] threw. *)
Inductive insertion : Type :=
  | node_insertion (value : Z)
  | edge_insertion (src dst : Z) (weight : option Z).

Fixpoint insert_all (ops : list insertion) (g : graph) : option graph :=
  match ops with
  | [] => Some g
  | node_insertion v :: ops => insert_all ops (insert_node v g).2
  | edge_insertion s d w :: ops =>
      match insert_edge s d w g with
      | (Returned _, g') => insert_all ops g'
      | (Thrown _, _) => None
      end
  end.

(** ** What the specification says, in its own words *)

(** Invariant 4: src ascending, then dst ascending, then unweighted before
    weighted, then weight ascending. *)
Definition canonical_le (a b : edge) : Prop :=
  src a < src b ∨
  (src a = src b ∧
   (dst a < dst b ∨
    (dst a = dst b ∧
     match a, b with
     | unweighted_edge _ _, _ => True
     | weighted_edge _ _ _, unweighted_edge _ _ => False
     | weighted_edge _ _ wa, weighted_edge _ _ wb => wa ≤ wb
     end))).

Global Instance canonical_le_dec : RelDecision canonical_le.
Proof. intros [] []; unfold canonical_le; simpl; apply _. Defined.

Definition canonical_order (es : list edge) : Prop := Sorted canonical_le es.

(** Invariant 2: structural equality of two edge records. *)
Definition structurally_equal (a b : edge) : Prop :=
  src a = src b ∧ dst a = dst b ∧
  match a, b with
  | unweighted_edge _ _, unweighted_edge _ _ => True
  | weighted_edge _ _ wa, weighted_edge _ _ wb => wa = wb
  | _, _ => False
  end.

(** Invariants 2 and 4 together: the order is strict. *)
Definition canonical_lt (a b : edge) : Prop := canonical_le a b ∧ a ≠ b.

(** Invariants 2, 3 and 4 (invariant 1 is built into [gset]). *)
Record graph_invariant (g : graph) : Prop := {
  invariant_no_duplicate : NoDup (_edges g);
  invariant_endpoints :
    ∀ e, e ∈ _edges g → src e ∈ _nodes g ∧ dst e ∈ _nodes g;
  invariant_order : canonical_order (_edges g)
}.

(** The operations that have a node-existence precondition, and the table of
    section 6. *)
Inductive guarded_operation : Type :=
  | op_insert_edge | op_replace_node | op_merge_replace_node | op_is_connected
  | op_erase_edge | op_edges | op_connections.

Definition documented_message (op : guarded_operation) : string :=
  match op with
  | op_insert_edge =>
      "Cannot call gdwg::graph<N, E>::insert_edge when either src or dst node does not exist"
  | op_replace_node =>
      "Cannot call gdwg::graph<N, E>::replace_node on a node that doesn't exist"
  | op_merge_replace_node =>
      "Cannot call gdwg::graph<N, E>::merge_replace_node on old or new data if they don't exist in the graph"
  | op_is_connected =>
      "Cannot call gdwg::graph<N, E>::is_connected if src or dst node don't exist in the graph"
  | op_erase_edge =>
      "Cannot call gdwg::graph<N, E>::erase_edge on src or dst if they don't exist in the graph"
  | op_edges =>
      "Cannot call gdwg::graph<N, E>::edges if src or dst node don't exist in the graph"
  | op_connections =>
      "Cannot call gdwg::graph<N, E>::connections if src doesn't exist in the graph"
  end.

(** Section 4.5: the two lists an edge store is partitioned into. *)
Definition unweighted_pairs (es : list edge) : list (Z * Z) :=
  omap (λ e, match e with
             | unweighted_edge s d => Some (s, d)
             | weighted_edge _ _ _ => None
             end) es.

Definition weighted_triples (es : list edge) : list (Z * Z * Z) :=
  omap (λ e, match e with
             | weighted_edge s d w => Some (s, d, w)
             | unweighted_edge _ _ => None
             end) es.

(** Section 4.6: the text of a graph.  [weighted_order] is the order in which
    the weighted edges leaving a node are listed. *)
Definition string_concat (l : list string) : string :=
  foldr String.append EmptyString l.

Definition outgoing (node : Z) (es : list edge) : list edge :=
  filter (λ e, src e = node) es.

Definition edge_line (e : edge) : string := "  " +:+ print_edge e +:+ nl.

Definition node_block (weighted_order : list edge → list edge)
    (es : list edge) (node : Z) : string :=
  pretty node +:+ " (" +:+ nl
  +:+ string_concat
        (edge_line <$> filter (λ e, is_weighted e = false) (outgoing node es))
  +:+ string_concat
        (edge_line
           <$> weighted_order
                 (filter (λ e, is_weighted e = true) (outgoing node es)))
  +:+ ")" +:+ nl.

Definition rendering (weighted_order : list edge → list edge) (g : graph)
  : string :=
  nl +:+ string_concat (node_block weighted_order (_edges g) <$> nodes g).

(** "weighted edges ascending by weight". *)
Definition weight_le (a b : edge) : Prop :=
  match get_weight a, get_weight b with
  | Some wa, Some wb => wa ≤ wb
  | _, _ => True
  end.

Global Instance weight_le_dec : RelDecision weight_le.
Proof. intros [] []; unfold weight_le; simpl; apply _. Defined.

Definition ascending_by_weight (es : list edge) : list edge :=
  merge_sort weight_le es.

(** What the weighted edges leaving one node are ordered by in a canonically
    ordered store: dst first, weight second. *)
Definition dst_weight_le (a b : edge) : Prop :=
  dst a < dst b ∨ (dst a = dst b ∧ weight_le a b).

(** ** Graphs of the test cases *)

(** "Merge Replace Node": nodes 1, 2, 3 and the edges (1→2, 10), (1→3, 15). *)
Definition merge_test_graph : graph :=
  {| _nodes := {[ 1; 2; 3 ]};
     _edges := [weighted_edge 1 2 10; weighted_edge 1 3 15] |}.

(** "Erase Node", "Erase Edge", "Replace Node": nodes 1, 2 and the edge
    (1→2, 10). *)
Definition single_edge_graph : graph :=
  {| _nodes := {[ 1; 2 ]}; _edges := [weighted_edge 1 2 10] |}.

(** "Every edge record whose src or dst equals old has that field rewritten
    to new": [e'] is [e] after the rewrite. *)
Definition rewritten (old new : Z) (e e' : edge) : Prop :=
  src e' = (if decide (src e = old) then new else src e)
  ∧ dst e' = (if decide (dst e = old) then new else dst e)
  ∧ get_weight e' = get_weight e.

(** "The edge matching src, dst, and either unweighted if no weight is given
    or weighted with this weight if given". *)
Definition matches (s d : Z) (weight : option Z) (e : edge) : Prop :=
  src e = s ∧ dst e = d ∧
  match weight with
  | None => is_weighted e = false
  | Some w => is_weighted e = true ∧ get_weight e = Some w
  end.

Global Instance matches_dec s d weight e : Decision (matches s d weight e).
Proof. unfold matches. destruct weight; apply _. Defined.

(** Nodes 1, 2, 3 and the unweighted edges 1→2 and 2→3, inserted through the
    public operations. *)
Definition chain_insertions : list insertion :=
  [node_insertion 1; node_insertion 2; node_insertion 3;
   edge_insertion 1 2 None; edge_insertion 2 3 None].

(** Nodes 2, 3, 5 and the unweighted edges 5→2 and 2→3: what the chain above
    becomes once node 1 is renamed to 5. *)
Definition renamed_chain_insertions : list insertion :=
  [node_insertion 2; node_insertion 3; node_insertion 5;
   edge_insertion 5 2 None; edge_insertion 2 3 None].

(** "Iterator Test" and "Equality Operator": nodes 1, 2 and the edges
    (1→2, 10), (2→1, 5), inserted in two different orders. *)
Definition forward_insertions : list insertion :=
  [node_insertion 1; node_insertion 2;
   edge_insertion 1 2 (Some 10); edge_insertion 2 1 (Some 5)].

Definition backward_insertions : list insertion :=
  [node_insertion 2; node_insertion 1;
   edge_insertion 2 1 (Some 5); edge_insertion 1 2 (Some 10)].

Definition two_edge_graph : graph :=
  {| _nodes := {[ 1; 2 ]};
     _edges := [weighted_edge 1 2 10; weighted_edge 2 1 5] |}.

(** Nodes 1, 2, 3 and the weighted edges (1→2, 10), (1→3, 5). *)
Definition fan_graph : graph :=
  {| _nodes := {[ 1; 2; 3 ]};
     _edges := [weighted_edge 1 2 10; weighted_edge 1 3 5] |}.

Definition fan_insertions : list insertion :=
  [node_insertion 1; node_insertion 2; node_insertion 3;
   edge_insertion 1 3 (Some 5); edge_insertion 1 2 (Some 10)].

(** "Output Operator": the insertions of the test case and the text it
    expects, line by line. *)
Definition output_test_insertions : list insertion :=
  flat_map (λ '(from, to, weight),
              [node_insertion from; node_insertion to;
               edge_insertion from to weight])
           [(4, 1, Some (-4)); (3, 2, Some 2); (2, 4, None); (2, 4, Some 2);
            (2, 1, Some 1); (4, 1, None); (6, 2, Some 5); (6, 3, Some 10);
            (1, 5, Some (-1)); (3, 6, Some (-8)); (4, 5, Some 3);
            (5, 2, None)]
  ++ [node_insertion 64].

Definition expected_output : string :=
  nl +:+ string_concat
    ((λ line, line +:+ nl) <$>
     [ "1 ("; "  1 -> 5 | W | -1"; ")";
       "2 ("; "  2 -> 4 | U"; "  2 -> 1 | W | 1"; "  2 -> 4 | W | 2"; ")";
       "3 ("; "  3 -> 2 | W | 2"; "  3 -> 6 | W | -8"; ")";
       "4 ("; "  4 -> 1 | U"; "  4 -> 1 | W | -4"; "  4 -> 5 | W | 3"; ")";
       "5 ("; "  5 -> 2 | U"; ")";
       "6 ("; "  6 -> 2 | W | 5"; "  6 -> 3 | W | 10"; ")";
       "64 ("; ")" ]).

(** ** Copies and iterator positions *)

(** The copy constructor: the node set is copied and every edge of [other] is
    cloned and pushed, in order. *)
Definition graph_copy (other : graph) : graph :=
  {| _nodes := _nodes other;
     _edges :=
       fold_left (λ edges edge, edges ++ [clone edge]) (_edges other) [] |}.

(** Copy assignment from another object: the nodes are assigned, the edge
    store is cleared and refilled with clones.  (Assigning an object to
    itself does nothing.) *)
Definition copy_assign (this other : graph) : graph :=
  let nodes := _nodes other in
  let edges : list edge := [] in
  {| _nodes := nodes;
     _edges :=
       fold_left (λ edges edge, edges ++ [clone edge]) (_edges other) edges |}.

Definition graph_end (g : graph) : nat := length (_edges g).

(** * Proofs *)

(** ** Edge equality and the comparator *)

Ltac decide_comparisons :=
  repeat match goal with
    | |- context [(?x =? ?y)%Z] => destruct (Z.eqb_spec x y)
    | |- context [(?x <? ?y)%Z] => destruct (Z.ltb_spec x y)
    end; simpl.

Lemma edge_eq_true a b : edge_eq a b = true ↔ a = b.
Proof.
  destruct a, b; simpl; decide_comparisons;
    split; intros; try discriminate; try congruence.
Qed.

Lemma edge_eq_structural a b : edge_eq a b = true ↔ structurally_equal a b.
Proof.
  unfold structurally_equal.
  destruct a, b; simpl; decide_comparisons;
    split; intros; try discriminate; try tauto; intuition congruence.
Qed.

Lemma edge_eq_refl a : edge_eq a a = true.
Proof. by apply edge_eq_true. Qed.

Lemma edge_eq_false a b : edge_eq a b = false ↔ a ≠ b.
Proof. rewrite <-edge_eq_true. by destruct (edge_eq a b). Qed.

(** The comparator is the strict part of the documented order. *)
Lemma edge_compare_false a b : edge_compare b a = false ↔ canonical_le a b.
Proof.
  unfold edge_compare, canonical_le.
  destruct a as [sa da wa|sa da], b as [sb db wb|sb db]; simpl;
    decide_comparisons; split; intros; try discriminate; try lia; done.
Qed.

Lemma edge_compare_true a b : edge_compare a b = true ↔ canonical_lt a b.
Proof.
  unfold edge_compare, canonical_lt, canonical_le.
  destruct a as [sa da wa|sa da], b as [sb db wb|sb db]; simpl;
    decide_comparisons;
    (split; [intros; try done; (split; [lia || tauto | intros [=]; lia])
            | intros [Hle Hne]; try done; exfalso;
              first [lia | apply Hne; f_equal; lia]]).
Qed.

Global Instance canonical_le_trans : Transitive canonical_le.
Proof.
  intros a b c. unfold canonical_le.
  destruct a, b, c; simpl; intros; try lia.
Qed.

Global Instance canonical_le_antisymm : AntiSymm (=) canonical_le.
Proof.
  intros a b. unfold canonical_le.
  destruct a, b; simpl; intros; try lia; f_equal; lia.
Qed.

Global Instance canonical_le_total : Total canonical_le.
Proof.
  intros a b. unfold canonical_le. destruct a, b; simpl; lia.
Qed.

Global Instance canonical_le_refl : Reflexive canonical_le.
Proof. intros a. destruct (total canonical_le a a); done. Qed.

Global Instance canonical_lt_trans : Transitive canonical_lt.
Proof.
  intros a b c [Hab Hne] [Hbc Hne']. split; [by etrans|].
  intros ->. apply Hne. by apply (anti_symm canonical_le).
Qed.

(** ** The standard algorithms *)

Section std_algorithms_facts.
Context {A : Type}.
Implicit Types (l : list A) (p : A → bool).

Lemma std_find_if_end p l :
  std_find_if p l = length l ↔ ∀ x, x ∈ l → p x = false.
Proof.
  induction l as [|y l IH]; simpl.
  - split; [intros _ x Hx; by apply elem_of_nil in Hx | done].
  - destruct (p y) eqn:Hy.
    + split; [done|]. intros H. specialize (H y (list_elem_of_here _ _)).
      congruence.
    + split.
      * intros [= Hlen] x [->|Hx]%elem_of_cons; [done|]. by apply IH.
      * intros H. f_equal. apply IH. intros x Hx. apply H. by right.
Qed.

Lemma std_find_if_found p l :
  std_find_if p l ≠ length l ↔ ∃ x, x ∈ l ∧ p x = true.
Proof.
  rewrite std_find_if_end. split.
  - intros Hn. induction l as [|y l IH].
    + destruct Hn. by intros x ?%elem_of_nil.
    + destruct (p y) eqn:Hy; [exists y; split; [left|done]|].
      destruct IH as (x & ? & ?).
      * intros H. apply Hn. by intros x [->|?]%elem_of_cons; [|apply H].
      * exists x. split; [by right|done].
  - intros (x & Hx & Hp) H. rewrite (H x Hx) in Hp. done.
Qed.

Lemma std_any_of_true p l :
  std_any_of p l = true ↔ ∃ x, x ∈ l ∧ p x = true.
Proof.
  unfold std_any_of. rewrite existsb_exists.
  by setoid_rewrite list_elem_of_In.
Qed.

Lemma std_remove_if_elem_of p l x :
  x ∈ std_remove_if p l ↔ x ∈ l ∧ p x = false.
Proof. unfold std_remove_if. rewrite list_elem_of_filter. tauto. Qed.

Lemma std_remove_if_sublist p l : std_remove_if p l `sublist_of` l.
Proof. apply sublist_filter. Qed.

Lemma std_remove_if_none p l :
  (∀ x, x ∈ l → p x = false) → std_remove_if p l = l.
Proof.
  unfold std_remove_if. induction l as [|y l IH]; [done|]. intros H.
  rewrite filter_cons_True by (apply H; left).
  f_equal. apply IH. intros x Hx. apply H. by right.
Qed.

Lemma std_remove_if_length p l :
  length (std_remove_if p l) = length l ↔ ∀ x, x ∈ l → p x = false.
Proof.
  split; [|by intros ->%std_remove_if_none].
  intros Hlen x Hx. destruct (p x) eqn:Hp; [|done].
  assert (length (filter (λ x, p x = false) l) < length l)%nat as Hlt
    by (apply (length_filter_lt _ l x Hx); congruence).
  unfold std_remove_if in Hlen. lia.
Qed.

Lemma sorted_insert_Permutation comp x l : sorted_insert comp x l ≡ₚ x :: l.
Proof.
  induction l as [|y l IH]; simpl; [done|].
  destruct (comp x y); [done|]. rewrite IH. apply perm_swap.
Qed.

Lemma std_sort_Permutation comp l : std_sort comp l ≡ₚ l.
Proof.
  unfold std_sort. induction l as [|y l IH]; simpl; [done|].
  by rewrite sorted_insert_Permutation, IH.
Qed.

Lemma std_sort_elem_of comp l x : x ∈ std_sort comp l ↔ x ∈ l.
Proof. by rewrite std_sort_Permutation. Qed.

Lemma std_sort_length comp l : length (std_sort comp l) = length l.
Proof. by rewrite std_sort_Permutation. Qed.

Lemma Sorted_sublist (R : relation A) `{!Transitive R} l k :
  k `sublist_of` l → Sorted R l → Sorted R k.
Proof.
  intros Hsub Hl. apply Sorted_StronglySorted in Hl; [|done].
  apply StronglySorted_Sorted. induction Hsub as [|x k l Hsub IH|x k l Hsub IH].
  - constructor.
  - apply StronglySorted_inv in Hl as [Hl Hx]. constructor; [by apply IH|].
    rewrite Forall_forall in *. intros y Hy. apply Hx.
    by eapply elem_of_sublist.
  - apply StronglySorted_inv in Hl as [Hl _]. by apply IH.
Qed.
End std_algorithms_facts.

(** ** Sorting and deduplicating an edge store *)

Lemma sorted_insert_canonical x l :
  canonical_order l → canonical_order (sorted_insert edge_compare x l).
Proof.
  unfold canonical_order. induction 1 as [|y l Hl IH Hy]; simpl.
  - repeat constructor.
  - destruct (edge_compare x y) eqn:Hxy.
    + constructor; [by constructor|]. constructor.
      apply edge_compare_true in Hxy. apply Hxy.
    + constructor; [done|]. apply edge_compare_false in Hxy.
      destruct Hy as [|z l' Hz]; simpl; [by constructor|].
      destruct (edge_compare x z); by constructor.
Qed.

Lemma std_sort_canonical l : canonical_order (std_sort edge_compare l).
Proof.
  unfold std_sort. induction l as [|x l IH]; simpl; [constructor|].
  by apply sorted_insert_canonical.
Qed.

(** Whatever order [std::sort] leaves equivalent elements in, there is only
    one outcome: the canonically ordered permutation of the input. *)
Lemma std_sort_unique l k :
  canonical_order k → k ≡ₚ l → std_sort edge_compare l = k.
Proof.
  intros Hk Hperm. apply (Sorted_unique canonical_le).
  - apply std_sort_canonical.
  - done.
  - by rewrite std_sort_Permutation.
Qed.

Lemma std_sort_canonical_id l :
  canonical_order l → std_sort edge_compare l = l.
Proof. intros. by apply std_sort_unique. Qed.

Lemma strict_order_canonical l :
  StronglySorted canonical_lt l → canonical_order l.
Proof.
  intros H. apply StronglySorted_Sorted.
  induction H as [|x l Hl IH Hx]; constructor; [done|].
  eapply Forall_impl; [done|]. by intros y [? _].
Qed.

Lemma strict_order_NoDup l : StronglySorted canonical_lt l → NoDup l.
Proof.
  induction 1 as [|x l Hl IH Hx]; constructor; [|done].
  rewrite Forall_forall in Hx. intros Hin. by destruct (Hx x Hin) as [_ ?].
Qed.

Lemma canonical_NoDup_strict l :
  canonical_order l → NoDup l → StronglySorted canonical_lt l.
Proof.
  intros Hl%(Sorted_StronglySorted canonical_le). induction Hl as [|x l Hl IH Hx].
  - constructor.
  - intros [Hnin Hnd]%NoDup_cons. constructor; [by apply IH|].
    rewrite Forall_forall in *. intros y Hy. split; [by apply Hx|].
    by intros ->.
Qed.

Lemma strict_order_unique l k :
  StronglySorted canonical_lt l → StronglySorted canonical_lt k →
  (∀ x, x ∈ l ↔ x ∈ k) → l = k.
Proof.
  intros Hl Hk Hlk. apply (Sorted_unique canonical_le).
  - by apply strict_order_canonical.
  - by apply strict_order_canonical.
  - apply NoDup_Permutation; auto using strict_order_NoDup.
Qed.

Lemma unique_from_strict kept l :
  StronglySorted canonical_le (kept :: l) →
  StronglySorted canonical_lt (kept :: unique_from edge_eq kept l)
  ∧ ∀ x, x ∈ kept :: unique_from edge_eq kept l ↔ x ∈ kept :: l.
Proof.
  revert kept. induction l as [|y l IH]; intros kept Hs; simpl.
  - split; [repeat constructor|done].
  - apply StronglySorted_inv in Hs as [Hs Hkept].
    apply Forall_cons in Hkept as [Hky Hkl].
    destruct (edge_eq kept y) eqn:Heq.
    + apply edge_eq_true in Heq as <-.
      destruct (IH kept) as [IH1 IH2].
      { constructor; [|done]. by apply StronglySorted_inv in Hs as [? _]. }
      split; [done|]. intros x. rewrite IH2, !elem_of_cons. tauto.
    + apply edge_eq_false in Heq.
      destruct (IH y Hs) as [IH1 IH2].
      split; [|intros x; rewrite (elem_of_cons _ x kept), IH2;
               by rewrite <-elem_of_cons].
      constructor; [done|]. rewrite Forall_forall. intros z Hz.
      apply IH2 in Hz. assert (canonical_le y z) as Hyz.
      { apply elem_of_cons in Hz as [->|Hz]; [done|].
        apply StronglySorted_inv in Hs as [_ Hy].
        rewrite Forall_forall in Hy. by apply Hy. }
      split; [by etrans|]. intros ->. apply Heq.
      by apply (anti_symm canonical_le).
Qed.

Lemma std_unique_strict l :
  canonical_order l →
  StronglySorted canonical_lt (std_unique edge_eq l)
  ∧ ∀ x, x ∈ std_unique edge_eq l ↔ x ∈ l.
Proof.
  intros Hl%(Sorted_StronglySorted canonical_le). destruct l as [|x l]; simpl.
  - split; [constructor|done].
  - by apply unique_from_strict.
Qed.

Lemma std_unique_strict_id l :
  StronglySorted canonical_lt l → std_unique edge_eq l = l.
Proof.
  intros Hl. destruct (std_unique_strict l) as [H1 H2];
    [by apply strict_order_canonical|].
  by apply strict_order_unique.
Qed.

(** ** Node membership *)

Lemma is_node_true g v : is_node g v = true ↔ v ∈ _nodes g.
Proof. unfold is_node. apply bool_decide_eq_true. Qed.

Lemma is_node_false g v : is_node g v = false ↔ v ∉ _nodes g.
Proof. unfold is_node. apply bool_decide_eq_false. Qed.

Lemma guard_fails g a b :
  is_node g a = false ∨ is_node g b = false ↔
  negb (is_node g a) || negb (is_node g b) = true.
Proof. destruct (is_node g a), (is_node g b); simpl; intuition congruence. Qed.

Lemma guard_passes g a b :
  is_node g a = true ∧ is_node g b = true ↔
  negb (is_node g a) || negb (is_node g b) = false.
Proof. destruct (is_node g a), (is_node g b); simpl; intuition congruence. Qed.

(** ** insert_edge *)

Lemma make_edge_eq s d w :
  make_edge s d w
  = match w with Some w => weighted_edge s d w | None => unweighted_edge s d end.
Proof. done. Qed.

Lemma insert_edge_duplicate g s d w :
  is_node g s = true → is_node g d = true →
  make_edge s d w ∈ _edges g →
  insert_edge s d w g = (Returned false, g).
Proof.
  intros Hs Hd Hin. unfold insert_edge. rewrite Hs, Hd. simpl.
  destruct (Nat.eqb_spec
              (std_find_if (λ edge, edge_eq edge (make_edge s d w)) (_edges g))
              (length (_edges g))) as [Hend|]; [|done].
  rewrite std_find_if_end in Hend. specialize (Hend _ Hin).
  by rewrite edge_eq_refl in Hend.
Qed.

Lemma insert_edge_fresh g s d w :
  is_node g s = true → is_node g d = true →
  make_edge s d w ∉ _edges g →
  insert_edge s d w g
  = (Returned true,
     {| _nodes := _nodes g;
        _edges := std_sort edge_compare (_edges g ++ [make_edge s d w]) |}).
Proof.
  intros Hs Hd Hin. unfold insert_edge. rewrite Hs, Hd. simpl.
  destruct (Nat.eqb_spec
              (std_find_if (λ edge, edge_eq edge (make_edge s d w)) (_edges g))
              (length (_edges g))) as [|Hfound]; [done|].
  apply std_find_if_found in Hfound as (e & He & ->%edge_eq_true). done.
Qed.

(** C2: [insert_edge] throws the missing-node error when src or dst is not a
    node; otherwise it returns false and leaves the graph alone when a
    structurally equal edge is stored already; otherwise it adds the weighted
    (weight given) or unweighted (no weight) record, leaves the edge store in
    canonical order and returns true. *)
Theorem insert_edge_correct (g : graph) (s d : Z) (weight : option Z) :
  let new_edge :=
    match weight with
    | Some w => weighted_edge s d w
    | None => unweighted_edge s d
    end in
  (is_node g s = false ∨ is_node g d = false →
   insert_edge s d weight g = (Thrown (documented_message op_insert_edge), g))
  ∧ (is_node g s = true → is_node g d = true →
     (∃ e, e ∈ _edges g ∧ structurally_equal e new_edge) →
     insert_edge s d weight g = (Returned false, g))
  ∧ (is_node g s = true → is_node g d = true →
     (∀ e, e ∈ _edges g → ¬ structurally_equal e new_edge) →
     ∃ g', insert_edge s d weight g = (Returned true, g')
           ∧ _nodes g' = _nodes g
           ∧ _edges g' ≡ₚ new_edge :: _edges g
           ∧ canonical_order (_edges g')).
Proof.
  intros new_edge. change new_edge with (make_edge s d weight).
  split; [|split].
  - intros Hguard%guard_fails. unfold insert_edge. by rewrite Hguard.
  - intros Hs Hd (e & He & Heq). apply insert_edge_duplicate; [done..|].
    apply edge_eq_structural, edge_eq_true in Heq. by subst.
  - intros Hs Hd Hfresh. eexists. split; [apply insert_edge_fresh; [done..|]|].
    + intros Hin. apply (Hfresh _ Hin). apply edge_eq_structural, edge_eq_refl.
    + simpl. split; [done|]. split; [|apply std_sort_canonical].
      rewrite std_sort_Permutation. by rewrite Permutation_app_comm.
Qed.

Lemma insert_edge_correct_witness :
  insert_edge 1 4 (Some 5) merge_test_graph
    = (Thrown (documented_message op_insert_edge), merge_test_graph)
  ∧ insert_edge 1 2 (Some 10) merge_test_graph
    = (Returned false, merge_test_graph)
  ∧ ∃ g', insert_edge 1 2 None merge_test_graph = (Returned true, g')
          ∧ _nodes g' = _nodes merge_test_graph
          ∧ _edges g' ≡ₚ unweighted_edge 1 2 :: _edges merge_test_graph
          ∧ canonical_order (_edges g').
Proof.
  split; [|split].
  - apply (insert_edge_correct merge_test_graph 1 4 (Some 5)).
    right. vm_compute. reflexivity.
  - apply (insert_edge_correct merge_test_graph 1 2 (Some 10)).
    + vm_compute. reflexivity.
    + vm_compute. reflexivity.
    + exists (weighted_edge 1 2 10). split; [left|]. vm_compute. tauto.
  - apply (insert_edge_correct merge_test_graph 1 2 None).
    + vm_compute. reflexivity.
    + vm_compute. reflexivity.
    + intros e He [_ [_ Hw]]. simpl in He.
      apply elem_of_cons in He as [->|He]; [done|].
      apply elem_of_cons in He as [->|He]; [done|].
      by apply elem_of_nil in He.
Defined.

(** ** replace_node *)

Lemma redirect_rewritten old new e : rewritten old new e (redirect old new e).
Proof.
  unfold rewritten, redirect.
  destruct e as [s d w|s d]; simpl; decide_comparisons;
    repeat case_decide; simpl; try done; try lia;
    decide_comparisons; try done; lia.
Qed.

Lemma rewritten_unique old new e e1 e2 :
  rewritten old new e e1 → rewritten old new e e2 → e1 = e2.
Proof.
  intros (Hs1 & Hd1 & Hw1) (Hs2 & Hd2 & Hw2).
  rewrite <-Hs2 in Hs1. rewrite <-Hd2 in Hd1. rewrite <-Hw2 in Hw1.
  destruct e1, e2; simpl in *; congruence.
Qed.

(** C4: [replace_node] throws the missing-node error when old is not a node,
    returns false and changes nothing when new is a node already, and
    otherwise rewrites, slot by slot, every src and dst equal to old into
    new, removes old from the nodes, adds new and returns true. *)
Theorem replace_node_correct (g : graph) (old new : Z) :
  (is_node g old = false →
   replace_node old new g = (Thrown (documented_message op_replace_node), g))
  ∧ (is_node g old = true → is_node g new = true →
     replace_node old new g = (Returned false, g))
  ∧ (is_node g old = true → is_node g new = false →
     ∃ g', replace_node old new g = (Returned true, g')
           ∧ is_node g' old = false
           ∧ is_node g' new = true
           ∧ (∀ v, v ≠ old → v ≠ new → is_node g' v = is_node g v)
           ∧ length (_edges g') = length (_edges g)
           ∧ ∀ i e, _edges g !! i = Some e →
                    ∃ e', _edges g' !! i = Some e' ∧ rewritten old new e e').
Proof.
  unfold replace_node. split; [|split].
  - by intros ->.
  - by intros -> ->.
  - intros Ho Hn. rewrite Ho, Hn. simpl. eexists. split; [done|].
    unfold is_node in *. simpl.
    apply bool_decide_eq_true in Ho. apply bool_decide_eq_false in Hn.
    split; [apply bool_decide_eq_false; set_solver|].
    split; [apply bool_decide_eq_true; set_solver|].
    split; [intros v ??; apply bool_decide_ext; set_solver|].
    split; [apply length_map|].
    intros i e Hi. exists (redirect old new e).
    split; [|apply redirect_rewritten].
    change (map (redirect old new) (_edges g))
      with (redirect old new <$> _edges g).
    by rewrite list_lookup_fmap, Hi.
Qed.

Lemma replace_node_correct_witness :
  replace_node 4 5 single_edge_graph
    = (Thrown (documented_message op_replace_node), single_edge_graph)
  ∧ replace_node 1 2 single_edge_graph = (Returned false, single_edge_graph)
  ∧ ∃ g', replace_node 1 3 single_edge_graph = (Returned true, g')
          ∧ is_node g' 1 = false
          ∧ is_node g' 3 = true
          ∧ (∀ v, v ≠ 1 → v ≠ 3 → is_node g' v = is_node single_edge_graph v)
          ∧ length (_edges g') = length (_edges single_edge_graph)
          ∧ ∀ i e, _edges single_edge_graph !! i = Some e →
                   ∃ e', _edges g' !! i = Some e' ∧ rewritten 1 3 e e'.
Proof.
  split; [|split].
  - apply (replace_node_correct single_edge_graph 4 5).
    vm_compute. reflexivity.
  - apply (replace_node_correct single_edge_graph 1 2).
    + vm_compute. reflexivity.
    + vm_compute. reflexivity.
  - apply (replace_node_correct single_edge_graph 1 3).
    + vm_compute. reflexivity.
    + vm_compute. reflexivity.
Defined.

(** ** merge_replace_node *)

Lemma merge_replace_node_returns g old new :
  is_node g old = true → is_node g new = true →
  merge_replace_node old new g
  = (Returned (),
     {| _nodes := _nodes g ∖ {[ old ]};
        _edges :=
          std_unique edge_eq
            (std_sort edge_compare (map (redirect old new) (_edges g))) |}).
Proof. intros Ho Hn. unfold merge_replace_node. by rewrite Ho, Hn. Qed.

Lemma merged_edges_strict old new es :
  StronglySorted canonical_lt
    (std_unique edge_eq (std_sort edge_compare (map (redirect old new) es))).
Proof. apply std_unique_strict, std_sort_canonical. Qed.

Lemma merged_edges_elem_of old new es e' :
  e' ∈ std_unique edge_eq (std_sort edge_compare (map (redirect old new) es))
  ↔ ∃ e, e ∈ es ∧ rewritten old new e e'.
Proof.
  destruct (std_unique_strict
              (std_sort edge_compare (map (redirect old new) es)))
    as [_ ->]; [apply std_sort_canonical|].
  rewrite std_sort_elem_of.
  change (map (redirect old new) es) with (redirect old new <$> es).
  rewrite list_elem_of_fmap. split.
  - intros (e & -> & He). exists e. split; [done|apply redirect_rewritten].
  - intros (e & He & Hrw). exists e. split; [|done].
    eapply rewritten_unique; [done|apply redirect_rewritten].
Qed.

Lemma absent_occurs_never (x : edge) (l : list edge) :
  x ∉ l → filter (λ y, y = x) l = [].
Proof.
  induction l as [|y l IH]; [done|]. intros [Hne Hl]%not_elem_of_cons.
  rewrite filter_cons_False by congruence. by apply IH.
Qed.

Lemma NoDup_occurs_once (x : edge) (l : list edge) :
  NoDup l → x ∈ l → length (filter (λ y, y = x) l) = 1%nat.
Proof.
  induction 1 as [|y l Hy Hl IH]; [by intros ?%elem_of_nil|].
  intros [->|Hx]%elem_of_cons.
  - rewrite filter_cons_True by done. simpl.
    by rewrite absent_occurs_never.
  - rewrite filter_cons_False; [by apply IH|]. by intros ->.
Qed.

(** C3: with old and new both nodes, [merge_replace_node] returns (it cannot
    throw), old is no longer a node, and the edge store holds exactly the
    rewritten edges, in canonical order, each at most once.  With old or new
    missing it throws the missing-node error and the graph is as before.
    Given the edges (1→2, 10) and (1→3, 15), after
    [merge_replace_node 1 2] node 1 is gone, 2 and 3 are connected, and
    (2→2, 10) is stored exactly once. *)
Theorem merge_replace_node_correct (g : graph) (old new : Z) :
  (is_node g old = true → is_node g new = true →
   ∃ g', merge_replace_node old new g = (Returned (), g')
         ∧ (∀ v, is_node g' v = true ↔ v ≠ old ∧ is_node g v = true)
         ∧ (∀ e', e' ∈ _edges g' ↔ ∃ e, e ∈ _edges g ∧ rewritten old new e e')
         ∧ canonical_order (_edges g')
         ∧ NoDup (_edges g'))
  ∧ (is_node g old = false ∨ is_node g new = false →
     merge_replace_node old new g
     = (Thrown (documented_message op_merge_replace_node), g))
  ∧ (is_node g 1 = true → is_node g 2 = true → is_node g 3 = true →
     weighted_edge 1 2 10 ∈ _edges g → weighted_edge 1 3 15 ∈ _edges g →
     ∃ g', merge_replace_node 1 2 g = (Returned (), g')
           ∧ is_node g' 1 = false
           ∧ is_connected g' 2 3 = Returned true
           ∧ length (filter (λ e, e = weighted_edge 2 2 10) (_edges g'))
             = 1%nat).
Proof.
  split; [|split].
  - intros Ho Hn. eexists. split; [by apply merge_replace_node_returns|].
    simpl. split; [|split; [|split]].
    + intros v. rewrite !is_node_true. simpl. set_solver.
    + apply merged_edges_elem_of.
    + apply strict_order_canonical, merged_edges_strict.
    + apply strict_order_NoDup, merged_edges_strict.
  - intros Hguard%guard_fails. unfold merge_replace_node. by rewrite Hguard.
  - intros H1 H2 H3 He12 He13. eexists.
    split; [by apply merge_replace_node_returns|].
    split; [apply is_node_false; simpl; set_solver|].
    split.
    + unfold is_connected.
      assert (is_node
                {| _nodes := _nodes g ∖ {[1]};
                   _edges :=
                     std_unique edge_eq
                       (std_sort edge_compare (map (redirect 1 2) (_edges g)))
                |} 2 = true) as ->
        by (apply is_node_true; apply is_node_true in H2; simpl; set_solver).
      assert (is_node
                {| _nodes := _nodes g ∖ {[1]};
                   _edges :=
                     std_unique edge_eq
                       (std_sort edge_compare (map (redirect 1 2) (_edges g)))
                |} 3 = true) as ->
        by (apply is_node_true; apply is_node_true in H3; simpl; set_solver).
      simpl. f_equal. apply std_any_of_true.
      exists (weighted_edge 2 3 15). split; [|done].
      apply merged_edges_elem_of. exists (weighted_edge 1 3 15). by split.
    + simpl. apply NoDup_occurs_once.
      * apply strict_order_NoDup, merged_edges_strict.
      * apply merged_edges_elem_of. exists (weighted_edge 1 2 10). by split.
Qed.

Lemma merge_replace_node_correct_witness :
  (∃ g', merge_replace_node 1 2 merge_test_graph = (Returned (), g')
         ∧ (∀ v, is_node g' v = true ↔ v ≠ 1 ∧ is_node merge_test_graph v = true)
         ∧ (∀ e', e' ∈ _edges g'
                  ↔ ∃ e, e ∈ _edges merge_test_graph ∧ rewritten 1 2 e e')
         ∧ canonical_order (_edges g')
         ∧ NoDup (_edges g'))
  ∧ merge_replace_node 1 4 merge_test_graph
    = (Thrown (documented_message op_merge_replace_node), merge_test_graph)
  ∧ ∃ g', merge_replace_node 1 2 merge_test_graph = (Returned (), g')
          ∧ is_node g' 1 = false
          ∧ is_connected g' 2 3 = Returned true
          ∧ length (filter (λ e, e = weighted_edge 2 2 10) (_edges g'))
            = 1%nat.
Proof.
  split; [|split].
  - apply (merge_replace_node_correct merge_test_graph 1 2).
    + vm_compute. reflexivity.
    + vm_compute. reflexivity.
  - apply (merge_replace_node_correct merge_test_graph 1 4).
    right. vm_compute. reflexivity.
  - apply (merge_replace_node_correct merge_test_graph 1 2).
    + vm_compute. reflexivity.
    + vm_compute. reflexivity.
    + vm_compute. reflexivity.
    + simpl. left.
    + simpl. right. left.
Defined.

(** ** erase_edge *)

Lemma edge_matches_true s d weight e :
  edge_matches s d weight e = true ↔ matches s d weight e.
Proof.
  unfold edge_matches, matches.
  destruct e as [es ed ew|es ed], weight as [w|]; simpl;
    decide_comparisons; split; intros; try done; try lia;
    repeat split; try naive_solver congruence.
Qed.

Lemma edge_matches_false s d weight e :
  edge_matches s d weight e = false ↔ ¬ matches s d weight e.
Proof.
  rewrite <-edge_matches_true. by destruct (edge_matches s d weight e).
Qed.

Lemma matches_unique s d weight e1 e2 :
  matches s d weight e1 → matches s d weight e2 → e1 = e2.
Proof.
  unfold matches. destruct e1, e2, weight; simpl; naive_solver congruence.
Qed.

Lemma NoDup_remove_one (P : edge → Prop) `{!∀ e, Decision (P e)} l :
  NoDup l → (∀ a b, P a → P b → a = b) → (∃ e, e ∈ l ∧ P e) →
  S (length (filter (λ e, ¬ P e) l)) = length l.
Proof.
  intros Hnd Huniq. induction Hnd as [|y l Hy Hl IH]; intros (e & He & HP).
  - by apply elem_of_nil in He.
  - destruct (decide (P y)) as [HPy|HPy].
    + rewrite filter_cons_False by tauto. simpl. f_equal.
      assert (filter (λ e, ¬ P e) l = l) as ->; [|done].
      clear IH. induction l as [|z l IH]; [done|].
      apply not_elem_of_cons in Hy as [Hyz Hy].
      apply NoDup_cons in Hl as [_ Hl].
      rewrite filter_cons_True.
      * f_equal. apply IH; [done..|].
        apply elem_of_cons in He as [->|He]; [by left|].
        apply elem_of_cons in He as [->|He]; [|by right].
        destruct Hyz. by apply Huniq.
      * intros HPz. destruct Hyz. by apply Huniq.
    + rewrite filter_cons_True by done. simpl. f_equal. apply IH.
      exists e. split; [|done].
      apply elem_of_cons in He as [->|He]; [done|done].
Qed.

(** C5: [erase_edge] throws the missing-node error when src or dst is not a
    node.  Otherwise, when an edge matches (src, dst, and unweighted for no
    weight, weighted with that weight for a weight), it removes what matches,
    keeps every other edge in place and returns true; when none matches it
    returns false and the graph is as before.  Two matching edges are
    structurally equal, so in a store without duplicates exactly one edge
    is removed. *)
Theorem erase_edge_correct (g : graph) (s d : Z) (weight : option Z) :
  (is_node g s = false ∨ is_node g d = false →
   erase_edge s d weight g = (Thrown (documented_message op_erase_edge), g))
  ∧ (is_node g s = true → is_node g d = true →
     (∃ e, e ∈ _edges g ∧ matches s d weight e) →
     ∃ g', erase_edge s d weight g = (Returned true, g')
           ∧ _nodes g' = _nodes g
           ∧ (∀ e, e ∈ _edges g' ↔ e ∈ _edges g ∧ ¬ matches s d weight e)
           ∧ _edges g' `sublist_of` _edges g
           ∧ (NoDup (_edges g) →
              S (length (_edges g')) = length (_edges g)))
  ∧ (is_node g s = true → is_node g d = true →
     (∀ e, e ∈ _edges g → ¬ matches s d weight e) →
     erase_edge s d weight g = (Returned false, g))
  ∧ (∀ e1 e2, matches s d weight e1 → matches s d weight e2 →
              structurally_equal e1 e2).
Proof.
  split; [|split; [|split]].
  - intros Hguard%guard_fails. unfold erase_edge. by rewrite Hguard.
  - intros Hs Hd (e & He & Hm). unfold erase_edge. rewrite Hs, Hd. simpl.
    destruct (Nat.eqb_spec
                (length (std_remove_if (edge_matches s d weight) (_edges g)))
                (length (_edges g))) as [Hlen|Hlen]; simpl.
    + rewrite std_remove_if_length in Hlen. specialize (Hlen e He).
      apply edge_matches_false in Hlen. done.
    + eexists. split; [done|]. simpl. split; [done|].
      split; [|split; [apply std_remove_if_sublist|]].
      * intros e'. by rewrite std_remove_if_elem_of, edge_matches_false.
      * intros Hnd. unfold std_remove_if.
        rewrite <-(NoDup_remove_one (matches s d weight) (_edges g) Hnd
                     (matches_unique s d weight)) by eauto.
        f_equal. f_equal. apply list_filter_iff. intros x.
        apply edge_matches_false.
  - intros Hs Hd Hnone. unfold erase_edge. rewrite Hs, Hd. simpl.
    rewrite std_remove_if_none; [by rewrite Nat.eqb_refl|].
    intros x Hx. by apply edge_matches_false, Hnone.
  - intros e1 e2 H1 H2. apply edge_eq_structural, edge_eq_true.
    by eapply matches_unique.
Qed.

Lemma erase_edge_correct_witness :
  erase_edge 1 3 (Some 5) single_edge_graph
    = (Thrown (documented_message op_erase_edge), single_edge_graph)
  ∧ (∃ g', erase_edge 1 2 (Some 10) single_edge_graph = (Returned true, g')
           ∧ _nodes g' = _nodes single_edge_graph
           ∧ (∀ e, e ∈ _edges g'
                   ↔ e ∈ _edges single_edge_graph ∧ ¬ matches 1 2 (Some 10) e)
           ∧ _edges g' `sublist_of` _edges single_edge_graph
           ∧ (NoDup (_edges single_edge_graph) →
              S (length (_edges g')) = length (_edges single_edge_graph)))
  ∧ erase_edge 1 2 (Some 5) single_edge_graph
    = (Returned false, single_edge_graph).
Proof.
  split; [|split].
  - apply (erase_edge_correct single_edge_graph 1 3 (Some 5)).
    right. vm_compute. reflexivity.
  - apply (erase_edge_correct single_edge_graph 1 2 (Some 10)).
    + vm_compute. reflexivity.
    + vm_compute. reflexivity.
    + exists (weighted_edge 1 2 10). split; [left|]. vm_compute. tauto.
  - apply (erase_edge_correct single_edge_graph 1 2 (Some 5)).
    + vm_compute. reflexivity.
    + vm_compute. reflexivity.
    + intros e He (_ & _ & _ & Hw). simpl in He.
      apply elem_of_cons in He as [->|He]; [done|].
      by apply elem_of_nil in He.
Defined.

(** ** erase_node *)

Lemma incident_false v e :
  (src e =? v) || (dst e =? v) = false ↔ src e ≠ v ∧ dst e ≠ v.
Proof. decide_comparisons; naive_solver. Qed.

(** C6: [erase_node] returns false, and has no way to throw, when the value
    is not a node; otherwise it removes the node, removes every edge whose
    src or dst is that node, keeps the other edges in place and returns
    true.  Afterwards [is_connected] from the erased node throws the
    missing-node error. *)
Theorem erase_node_correct (g : graph) (v : Z) :
  (is_node g v = false → erase_node v g = (false, g))
  ∧ (is_node g v = true →
     ∃ g', erase_node v g = (true, g')
           ∧ (∀ u, is_node g' u = true ↔ u ≠ v ∧ is_node g u = true)
           ∧ (∀ e, e ∈ _edges g' ↔ e ∈ _edges g ∧ src e ≠ v ∧ dst e ≠ v)
           ∧ _edges g' `sublist_of` _edges g
           ∧ ∀ u, is_connected g' v u
                  = Thrown (documented_message op_is_connected)).
Proof.
  unfold erase_node. split.
  - by intros ->.
  - intros Hv. rewrite Hv. simpl. eexists. split; [done|]. simpl.
    split; [|split; [|split; [apply std_remove_if_sublist|]]].
    + intros u. rewrite !is_node_true. simpl. set_solver.
    + intros e. by rewrite std_remove_if_elem_of, incident_false.
    + intros u. unfold is_connected.
      assert (is_node
                {| _nodes := _nodes g ∖ {[v]};
                   _edges :=
                     std_remove_if
                       (λ edge, (src edge =? v) || (dst edge =? v)) (_edges g)
                |} v = false) as ->; [|done].
      apply is_node_false. simpl. set_solver.
Qed.

Lemma erase_node_correct_witness :
  erase_node 3 single_edge_graph = (false, single_edge_graph)
  ∧ ∃ g', erase_node 1 single_edge_graph = (true, g')
          ∧ (∀ u, is_node g' u = true
                  ↔ u ≠ 1 ∧ is_node single_edge_graph u = true)
          ∧ (∀ e, e ∈ _edges g'
                  ↔ e ∈ _edges single_edge_graph ∧ src e ≠ 1 ∧ dst e ≠ 1)
          ∧ _edges g' `sublist_of` _edges single_edge_graph
          ∧ ∀ u, is_connected g' 1 u
                 = Thrown (documented_message op_is_connected).
Proof.
  split.
  - apply (erase_node_correct single_edge_graph 3). vm_compute. reflexivity.
  - apply (erase_node_correct single_edge_graph 1). vm_compute. reflexivity.
Defined.

(** The test case "Erase Node", run on the model. *)
Example erase_node_test :
  let g := (erase_node 1 single_edge_graph).2 in
  (erase_node 1 single_edge_graph).1 = true
  ∧ is_node g 1 = false ∧ is_node g 2 = true ∧ _edges g = []
  ∧ is_connected g 1 2
    = Thrown "Cannot call gdwg::graph<N, E>::is_connected if src or dst node don't exist in the graph"
  ∧ (erase_node 3 g).1 = false.
Proof. vm_compute. repeat split. Qed.

(** ** Failed preconditions *)

(** C7: each operation with a node-existence precondition throws exactly the
    message documented for it when the precondition fails, and a mutating
    operation that throws leaves the graph as it found it. *)
Theorem precondition_failure (g : graph) :
  (∀ s d w, is_node g s = false ∨ is_node g d = false →
            insert_edge s d w g
            = (Thrown (documented_message op_insert_edge), g))
  ∧ (∀ old new, is_node g old = false →
                replace_node old new g
                = (Thrown (documented_message op_replace_node), g))
  ∧ (∀ old new, is_node g old = false ∨ is_node g new = false →
                merge_replace_node old new g
                = (Thrown (documented_message op_merge_replace_node), g))
  ∧ (∀ s d w, is_node g s = false ∨ is_node g d = false →
              erase_edge s d w g
              = (Thrown (documented_message op_erase_edge), g))
  ∧ (∀ s d, is_node g s = false ∨ is_node g d = false →
            is_connected g s d = Thrown (documented_message op_is_connected))
  ∧ (∀ s d, is_node g s = false ∨ is_node g d = false →
            edges g s d = Thrown (documented_message op_edges))
  ∧ (∀ s, is_node g s = false →
          connections g s = Thrown (documented_message op_connections))
  ∧ (∀ s d w what g', insert_edge s d w g = (Thrown what, g') → g' = g)
  ∧ (∀ old new what g', replace_node old new g = (Thrown what, g') → g' = g)
  ∧ (∀ old new what g',
       merge_replace_node old new g = (Thrown what, g') → g' = g)
  ∧ (∀ s d w what g', erase_edge s d w g = (Thrown what, g') → g' = g).
Proof.
  repeat apply conj.
  - intros s d w Hguard%guard_fails. unfold insert_edge. by rewrite Hguard.
  - intros old new Hold. unfold replace_node. by rewrite Hold.
  - intros old new Hguard%guard_fails. unfold merge_replace_node.
    by rewrite Hguard.
  - intros s d w Hguard%guard_fails. unfold erase_edge. by rewrite Hguard.
  - intros s d Hguard%guard_fails. unfold is_connected. by rewrite Hguard.
  - intros s d Hguard%guard_fails. unfold edges. by rewrite Hguard.
  - intros s Hs. unfold connections. by rewrite Hs.
  - intros s d w what g'. unfold insert_edge.
    repeat case_match; congruence.
  - intros old new what g'. unfold replace_node.
    repeat case_match; congruence.
  - intros old new what g'. unfold merge_replace_node.
    repeat case_match; congruence.
  - intros s d w what g'. unfold erase_edge.
    repeat case_match; congruence.
Qed.

Lemma precondition_failure_witness :
  insert_edge 1 3 (Some 5) single_edge_graph
    = (Thrown (documented_message op_insert_edge), single_edge_graph)
  ∧ replace_node 4 5 single_edge_graph
    = (Thrown (documented_message op_replace_node), single_edge_graph)
  ∧ merge_replace_node 1 4 single_edge_graph
    = (Thrown (documented_message op_merge_replace_node), single_edge_graph)
  ∧ erase_edge 1 3 (Some 5) single_edge_graph
    = (Thrown (documented_message op_erase_edge), single_edge_graph)
  ∧ is_connected single_edge_graph 3 2
    = Thrown (documented_message op_is_connected)
  ∧ edges single_edge_graph 1 3 = Thrown (documented_message op_edges)
  ∧ connections single_edge_graph 3
    = Thrown (documented_message op_connections).
Proof.
  pose proof (precondition_failure single_edge_graph)
    as (Hie & Hrn & Hmrn & Hee & Hic & Hes & Hcs & _).
  repeat apply conj.
  - apply Hie. right. vm_compute. reflexivity.
  - apply Hrn. vm_compute. reflexivity.
  - apply Hmrn. right. vm_compute. reflexivity.
  - apply Hee. right. vm_compute. reflexivity.
  - apply Hic. left. vm_compute. reflexivity.
  - apply Hes. right. vm_compute. reflexivity.
  - apply Hcs. vm_compute. reflexivity.
Defined.

(** ** Walking the node set *)

Lemma set_iter_Permutation (s : gset Z) : set_iter s ≡ₚ elements s.
Proof. apply merge_sort_Permutation. Qed.

Lemma set_iter_elem_of (s : gset Z) v : v ∈ set_iter s ↔ v ∈ s.
Proof. by rewrite set_iter_Permutation, elem_of_elements. Qed.

Lemma set_iter_NoDup (s : gset Z) : NoDup (set_iter s).
Proof. rewrite set_iter_Permutation. apply NoDup_elements. Qed.

Lemma set_iter_ascending (s : gset Z) : StronglySorted Z.lt (set_iter s).
Proof.
  pose proof (set_iter_NoDup s) as Hnd.
  assert (StronglySorted Z.le (set_iter s)) as Hs
    by apply (StronglySorted_merge_sort Z.le).
  induction Hs as [|x l Hl IH Hx]; [constructor|].
  apply NoDup_cons in Hnd as [Hnin Hnd]. constructor; [by apply IH|].
  rewrite Forall_forall in *. intros y Hy.
  specialize (Hx y Hy). assert (x ≠ y) by (by intros ->). lia.
Qed.

(** ** Constructors *)

Lemma range_insertions (range : list Z) (acc : gset Z) v :
  v ∈ fold_left (λ nodes v, {[ v ]} ∪ nodes) range acc ↔ v ∈ range ∨ v ∈ acc.
Proof.
  revert acc. induction range as [|x range IH]; intros acc; simpl.
  - rewrite elem_of_nil. tauto.
  - rewrite IH, elem_of_cons, elem_of_union, elem_of_singleton. tauto.
Qed.

(** C10: the graph built from an initializer list or from an iterator range
    has as nodes exactly the values listed, each once however often it is
    listed, and no edge. *)
Theorem constructors_correct (values : list Z) :
  (∀ v, is_node (graph_of_initializer_list values) v = true ↔ v ∈ values)
  ∧ (∀ v, v ∈ nodes (graph_of_initializer_list values) ↔ v ∈ values)
  ∧ NoDup (nodes (graph_of_initializer_list values))
  ∧ _edges (graph_of_initializer_list values) = []
  ∧ (∀ v, is_node (graph_of_range values) v = true ↔ v ∈ values)
  ∧ (∀ v, v ∈ nodes (graph_of_range values) ↔ v ∈ values)
  ∧ NoDup (nodes (graph_of_range values))
  ∧ _edges (graph_of_range values) = [].
Proof.
  repeat apply conj; try done; try apply set_iter_NoDup.
  - intros v. rewrite is_node_true. simpl. apply elem_of_list_to_set.
  - intros v. unfold nodes. rewrite set_iter_elem_of. simpl.
    apply elem_of_list_to_set.
  - intros v. rewrite is_node_true. simpl. rewrite range_insertions.
    set_solver.
  - intros v. unfold nodes. rewrite set_iter_elem_of. simpl.
    rewrite range_insertions. set_solver.
Qed.

Example constructors_collapse_duplicates :
  nodes (graph_of_initializer_list [3; 1; 3; 2; 1]) = [1; 2; 3]
  ∧ nodes (graph_of_range [3; 1; 3; 2; 1]) = [1; 2; 3].
Proof. vm_compute. done. Qed.

(** ** The canonical order of the edge store *)

Lemma insert_edge_canonical g s d w :
  canonical_order (_edges g) → canonical_order (_edges (insert_edge s d w g).2).
Proof.
  intros Hg. unfold insert_edge. repeat case_match; simpl; try done.
  apply std_sort_canonical.
Qed.

Lemma merge_replace_node_canonical g old new :
  canonical_order (_edges g) →
  canonical_order (_edges (merge_replace_node old new g).2).
Proof.
  intros Hg. unfold merge_replace_node. case_match; simpl; [done|].
  apply strict_order_canonical, merged_edges_strict.
Qed.

Lemma erase_node_canonical g v :
  canonical_order (_edges g) → canonical_order (_edges (erase_node v g).2).
Proof.
  intros Hg. unfold erase_node. case_match; simpl; [done|].
  eapply (Sorted_sublist canonical_le); [apply std_remove_if_sublist|done].
Qed.

Lemma erase_edge_canonical g s d w :
  canonical_order (_edges g) → canonical_order (_edges (erase_edge s d w g).2).
Proof.
  intros Hg. unfold erase_edge. repeat case_match; simpl; try done.
  eapply (Sorted_sublist canonical_le); [apply std_remove_if_sublist|done].
Qed.

Lemma clear_canonical g : canonical_order (_edges (clear g)).
Proof. constructor. Qed.

(** Iterating from [begin()] to [end()] visits the edge store slot by slot. *)
Lemma iterator_deref_order g it :
  iterator_deref g it
  = (λ e, (src e, dst e, get_weight e)) <$> _edges g !! it.
Proof. unfold iterator_deref. by destruct (_edges g !! it). Qed.

(** C1, at the operation that breaks it: on the graph with nodes 1, 2, 3 and
    edges 1→2, 2→3, which satisfies every invariant, [replace_node 1 5]
    returns true and leaves the edge store as 5→2, 2→3, out of canonical
    order.  [insert_edge], [merge_replace_node], [erase_node], [erase_edge]
    and [clear] keep the order (the lemmas above). *)
Theorem replace_node_breaks_canonical_order :
  ∃ g g',
    insert_all chain_insertions graph_default = Some g
    ∧ graph_invariant g
    ∧ replace_node 1 5 g = (Returned true, g')
    ∧ _edges g' = [unweighted_edge 5 2; unweighted_edge 2 3]
    ∧ ¬ canonical_order (_edges g')
    ∧ iterator_deref g' 0 = Some (5, 2, None)
    ∧ iterator_deref g' 1 = Some (2, 3, None).
Proof.
  eexists _, _. split; [vm_compute; reflexivity|].
  split; [|split; [vm_compute; reflexivity|]].
  - split; simpl.
    + compute_done.
    + intros e He. repeat (apply elem_of_cons in He as [->|He]);
        [simpl; set_solver..|by apply elem_of_nil in He].
    + compute_done.
  - split; [done|]. split; [|done]. simpl.
    intros Hs. apply Sorted_inv in Hs as [_ Hhd].
    apply HdRel_inv in Hhd. unfold canonical_le in Hhd. simpl in Hhd. lia.
Qed.

(** A consequence: the renamed graph and the graph with the same nodes and
    the same edges built by insertion alone do not compare equal. *)
Example replace_node_breaks_equality :
  ∃ g g' h,
    insert_all chain_insertions graph_default = Some g
    ∧ replace_node 1 5 g = (Returned true, g')
    ∧ insert_all renamed_chain_insertions graph_default = Some h
    ∧ _nodes g' = _nodes h
    ∧ _edges g' ≡ₚ _edges h
    ∧ graph_eq g' h = false.
Proof.
  eexists _, _, _. split; [vm_compute; reflexivity|].
  split; [vm_compute; reflexivity|]. split; [vm_compute; reflexivity|].
  split; [compute_done|]. split; [apply perm_swap|].
  vm_compute. reflexivity.
Qed.

(** ** Equality of graphs *)

Lemma split_edges_from (es : list edge) us ws :
  fold_left
    (λ '(unweighted, weighted) edge,
       if is_weighted edge then
         match get_weight edge with
         | Some w => (unweighted, weighted ++ [(src edge, dst edge, w)])
         | None => (unweighted, weighted)
         end
       else (unweighted ++ [(src edge, dst edge)], weighted))
    es (us, ws)
  = (us ++ unweighted_pairs es, ws ++ weighted_triples es).
Proof.
  revert us ws. induction es as [|e es IH]; intros us ws; simpl.
  - by rewrite !app_nil_r.
  - destruct e as [s d w|s d]; simpl; rewrite IH; simpl.
    + by rewrite <-app_assoc.
    + by rewrite <-app_assoc.
Qed.

Lemma split_edges_partition es :
  split_edges es = (unweighted_pairs es, weighted_triples es).
Proof. unfold split_edges. by rewrite split_edges_from. Qed.

Lemma partition_length es :
  length es
  = (length (unweighted_pairs es) + length (weighted_triples es))%nat.
Proof.
  induction es as [|[s d w|s d] es IH]; simpl; [done|..];
    unfold unweighted_pairs, weighted_triples in *; simpl; lia.
Qed.

Lemma graph_eq_true gA gB :
  graph_eq gA gB = true ↔
  _nodes gA = _nodes gB
  ∧ unweighted_pairs (_edges gA) = unweighted_pairs (_edges gB)
  ∧ weighted_triples (_edges gA) = weighted_triples (_edges gB).
Proof.
  unfold graph_eq. rewrite !split_edges_partition.
  destruct (decide (_nodes gA = _nodes gB)) as [Hn|Hn].
  2: { rewrite (bool_decide_eq_false_2 _ Hn). simpl. naive_solver. }
  rewrite (bool_decide_eq_true_2 _ Hn). simpl.
  destruct (Nat.eqb_spec (length (_edges gA)) (length (_edges gB)))
    as [Hlen|Hlen]; simpl.
  - repeat case_bool_decide; simpl; naive_solver.
  - split; [done|]. intros (_ & Hu & Hw). destruct Hlen.
    by rewrite !partition_length, Hu, Hw.
Qed.

Lemma graph_eq_refl g : graph_eq g g = true.
Proof. by apply graph_eq_true. Qed.

Lemma insert_node_nodes v g u :
  u ∈ _nodes (insert_node v g).2 ↔ u = v ∨ u ∈ _nodes g.
Proof.
  unfold insert_node. case_bool_decide; simpl; [|set_solver].
  split; [tauto|]. by intros [->|].
Qed.

Lemma insert_node_edges v g : _edges (insert_node v g).2 = _edges g.
Proof. unfold insert_node. by case_bool_decide. Qed.

Lemma insert_edge_returned g s d w b g' :
  insert_edge s d w g = (Returned b, g') →
  StronglySorted canonical_lt (_edges g) →
  _nodes g' = _nodes g
  ∧ StronglySorted canonical_lt (_edges g')
  ∧ ∀ e, e ∈ _edges g' ↔ e ∈ _edges g ∨ e = make_edge s d w.
Proof.
  intros Hins Hg. destruct (guard_passes g s d) as [_ Hguard].
  destruct (negb (is_node g s) || negb (is_node g d)) eqn:Hgd.
  { unfold insert_edge in Hins. by rewrite Hgd in Hins. }
  destruct (Hguard eq_refl) as [Hs Hd].
  destruct (decide (make_edge s d w ∈ _edges g)) as [Hin|Hin].
  - rewrite insert_edge_duplicate in Hins by done.
    simplify_eq. split; [done|]. split; [done|].
    intros e. split; [tauto|]. by intros [H | ->].
  - rewrite insert_edge_fresh in Hins by done.
    simplify_eq. simpl. split; [done|].
    split.
    + apply canonical_NoDup_strict; [apply std_sort_canonical|].
      rewrite std_sort_Permutation. apply NoDup_app.
      split; [by apply strict_order_NoDup|].
      split; [|apply NoDup_singleton].
      by intros x Hx ->%list_elem_of_singleton.
    + intros e. rewrite std_sort_elem_of, elem_of_app, list_elem_of_singleton.
      done.
Qed.

Lemma insert_all_built ops g g' :
  insert_all ops g = Some g' →
  StronglySorted canonical_lt (_edges g) →
  StronglySorted canonical_lt (_edges g')
  ∧ (∀ v, v ∈ _nodes g' ↔ v ∈ _nodes g ∨ node_insertion v ∈ ops)
  ∧ (∀ e, e ∈ _edges g'
          ↔ e ∈ _edges g
            ∨ ∃ s d w, edge_insertion s d w ∈ ops ∧ e = make_edge s d w).
Proof.
  revert g. induction ops as [|[v|s d w] ops IH]; intros g Hall Hg; simpl in *.
  - simplify_eq. split; [done|].
    split; [intros v|intros e]; (split; [tauto|]).
    + by intros [?|?%elem_of_nil].
    + by intros [?|(? & ? & ? & ?%elem_of_nil & _)].
  - apply IH in Hall as (Hs & Hn & He); [|by rewrite insert_node_edges].
    split; [done|]. split.
    + intros u. rewrite Hn, insert_node_nodes, elem_of_cons. naive_solver.
    + intros e. rewrite He, insert_node_edges.
      setoid_rewrite elem_of_cons. naive_solver.
  - destruct (insert_edge s d w g) as [[b|what] g1] eqn:Hins; [|done].
    apply insert_edge_returned in Hins as (Hn1 & Hs1 & He1); [|done].
    apply IH in Hall as (Hs & Hn & He); [|done].
    split; [done|]. split.
    + intros u. rewrite Hn, Hn1, elem_of_cons. naive_solver.
    + intros e. rewrite He, He1. setoid_rewrite elem_of_cons. naive_solver.
Qed.

Lemma built_graphs_equal ops1 ops2 g1 g2 :
  ops1 ≡ₚ ops2 →
  insert_all ops1 graph_default = Some g1 →
  insert_all ops2 graph_default = Some g2 →
  g1 = g2.
Proof.
  intros Hperm H1 H2.
  apply insert_all_built in H1 as (Hs1 & Hn1 & He1); [|constructor].
  apply insert_all_built in H2 as (Hs2 & Hn2 & He2); [|constructor].
  destruct g1 as [n1 e1], g2 as [n2 e2]; simpl in *. f_equal.
  - apply set_eq. intros v. rewrite Hn1, Hn2. by setoid_rewrite Hperm.
  - apply strict_order_unique; [done..|].
    intros e. rewrite He1, He2. by setoid_rewrite Hperm.
Qed.

Lemma graph_eq_length gA gB :
  graph_eq gA gB = true → length (_edges gA) = length (_edges gB).
Proof.
  intros (_ & Hu & Hw)%graph_eq_true. by rewrite !partition_length, Hu, Hw.
Qed.

Lemma insert_edge_true_length g s d w g' :
  insert_edge s d w g = (Returned true, g') →
  length (_edges g') = S (length (_edges g)).
Proof.
  unfold insert_edge. repeat case_match; intros; simplify_eq. simpl.
  rewrite std_sort_length, length_app. simpl. lia.
Qed.

(** C8: two graphs compare equal exactly when they have the same nodes and
    their edge stores, split into the list of unweighted (src, dst) pairs and
    the list of weighted (src, dst, weight) triples in storage order, agree
    list by list.  Graphs built by making the same insertions in different
    orders compare equal, and inserting one more edge into either of two
    equal graphs makes them unequal. *)
Theorem graph_eq_correct (gA gB : graph) :
  (graph_eq gA gB = true ↔
   (∀ v, is_node gA v = is_node gB v)
   ∧ unweighted_pairs (_edges gA) = unweighted_pairs (_edges gB)
   ∧ weighted_triples (_edges gA) = weighted_triples (_edges gB))
  ∧ (∀ opsA opsB,
       opsA ≡ₚ opsB →
       insert_all opsA graph_default = Some gA →
       insert_all opsB graph_default = Some gB →
       graph_eq gA gB = true)
  ∧ (∀ s d w g',
       graph_eq gA gB = true →
       (insert_edge s d w gA = (Returned true, g') → graph_eq g' gB = false)
       ∧ (insert_edge s d w gB = (Returned true, g') →
          graph_eq gA g' = false)).
Proof.
  split; [|split].
  - rewrite graph_eq_true.
    assert (_nodes gA = _nodes gB ↔ ∀ v, is_node gA v = is_node gB v) as ->;
      [|done].
    split; [by unfold is_node; intros ->|].
    intros Hn. apply set_eq. intros v. rewrite <-!is_node_true. by rewrite Hn.
  - intros opsA opsB Hperm HA HB.
    rewrite (built_graphs_equal opsA opsB gA gB) by done.
    apply graph_eq_refl.
  - intros s d w g' Heq%graph_eq_length.
    split; intros Hlen%insert_edge_true_length;
      apply not_true_is_false; intros Hlen'%graph_eq_length; lia.
Qed.

Lemma graph_eq_correct_witness :
  (∃ gA gB,
     insert_all forward_insertions graph_default = Some gA
     ∧ insert_all backward_insertions graph_default = Some gB
     ∧ graph_eq gA gB = true)
  ∧ ∃ g', insert_edge 2 1 None two_edge_graph = (Returned true, g')
          ∧ graph_eq g' two_edge_graph = false
          ∧ graph_eq two_edge_graph g' = false.
Proof.
  split.
  - exists two_edge_graph, two_edge_graph.
    assert (insert_all forward_insertions graph_default = Some two_edge_graph)
      as HA by (vm_compute; reflexivity).
    assert (insert_all backward_insertions graph_default = Some two_edge_graph)
      as HB by (vm_compute; reflexivity).
    split; [done|]. split; [done|].
    apply (graph_eq_correct two_edge_graph two_edge_graph)
      with (opsA := forward_insertions) (opsB := backward_insertions);
      [|done..].
    unfold forward_insertions, backward_insertions.
    etrans; [apply perm_swap|]. do 2 apply perm_skip. apply perm_swap.
  - assert (graph_eq two_edge_graph two_edge_graph = true) as Heq
      by (vm_compute; reflexivity).
    assert (insert_edge 2 1 None two_edge_graph
            = (Returned true,
               {| _nodes := {[ 1; 2 ]};
                  _edges := [weighted_edge 1 2 10; unweighted_edge 2 1;
                             weighted_edge 2 1 5] |})) as Hins
      by (vm_compute; reflexivity).
    destruct (graph_eq_correct two_edge_graph two_edge_graph)
      as (_ & _ & Hextra).
    eexists. split; [exact Hins|].
    split; by apply (Hextra 2 1 None _ Heq).
Defined.

(** The test case "Equality Operator", run on the model. *)
Example graph_eq_test :
  let g1 := (insert_edge 1 2 (Some 10) (graph_of_initializer_list [1; 2])).2 in
  let g2 := (insert_edge 1 2 (Some 10) (graph_of_initializer_list [1; 2])).2 in
  graph_eq g1 g2 = true
  ∧ graph_eq g1 (insert_edge 2 1 (Some 5) g2).2 = false.
Proof. vm_compute. done. Qed.

(** ** Printing *)

Lemma string_app_assoc (s1 s2 s3 : string) :
  (s1 +:+ s2) +:+ s3 = s1 +:+ (s2 +:+ s3).
Proof.
  induction s1 as [|c s1 IH]; [done|].
  change (String c ((s1 +:+ s2) +:+ s3) = String c (s1 +:+ (s2 +:+ s3))).
  by rewrite IH.
Qed.

Lemma string_app_nil_r (s : string) : s +:+ EmptyString = s.
Proof.
  induction s as [|c s IH]; [done|].
  change (String c (s +:+ EmptyString) = String c s). by rewrite IH.
Qed.

Lemma string_concat_app (l k : list string) :
  string_concat (l ++ k) = string_concat l +:+ string_concat k.
Proof.
  induction l as [|s l IH]; simpl; [done|].
  by rewrite IH, string_app_assoc.
Qed.

Lemma stream_all (l : list string) (os : string) :
  fold_left (λ os e, os +:+ e) l os = os +:+ string_concat l.
Proof.
  revert os. induction l as [|s l IH]; intros os; simpl.
  - by rewrite string_app_nil_r.
  - by rewrite IH, string_app_assoc.
Qed.

Lemma collect_lines (node : Z) (es : list edge) (us ws : list string) :
  fold_left
    (λ '(unweighted_edges, weighted_edges) edge,
       if src edge =? node then
         if is_weighted edge then
           (unweighted_edges,
            weighted_edges ++ [("  " +:+ print_edge edge) +:+ nl])
         else
           (unweighted_edges ++ [("  " +:+ print_edge edge) +:+ nl],
            weighted_edges)
       else (unweighted_edges, weighted_edges))
    es (us, ws)
  = (us ++ (edge_line
              <$> filter (λ e, is_weighted e = false) (outgoing node es)),
     ws ++ (edge_line
              <$> filter (λ e, is_weighted e = true) (outgoing node es))).
Proof.
  revert us ws. unfold outgoing.
  induction es as [|e es IH]; intros us ws; simpl.
  - by rewrite !app_nil_r.
  - destruct (Z.eqb_spec (src e) node) as [Hsrc|Hsrc].
    + rewrite (filter_cons_True (λ e, src e = node)) by done.
      destruct (is_weighted e) eqn:Hw; rewrite IH.
      * rewrite filter_cons_False by congruence.
        rewrite filter_cons_True by done.
        rewrite fmap_cons, <-app_assoc. unfold edge_line.
        by rewrite string_app_assoc.
      * rewrite filter_cons_True by done.
        rewrite filter_cons_False by congruence.
        rewrite fmap_cons, <-app_assoc. unfold edge_line.
        by rewrite string_app_assoc.
    + rewrite (filter_cons_False (λ e, src e = node)) by done. apply IH.
Qed.

Lemma print_node_block g os node :
  print_node g os node = os +:+ node_block (λ es, es) (_edges g) node.
Proof.
  unfold print_node, node_block. rewrite collect_lines. simpl.
  rewrite !stream_all. by rewrite !string_app_assoc.
Qed.

Lemma print_nodes_blocks g (ns : list Z) os :
  fold_left (print_node g) ns os
  = os +:+ string_concat (node_block (λ es, es) (_edges g) <$> ns).
Proof.
  revert os. induction ns as [|n ns IH]; intros os; simpl.
  - by rewrite string_app_nil_r.
  - by rewrite IH, print_node_block, string_app_assoc.
Qed.

Lemma print_graph_rendering g os :
  print_graph os g = os +:+ rendering (λ es, es) g.
Proof.
  unfold print_graph, rendering, nodes.
  by rewrite print_nodes_blocks, string_app_assoc.
Qed.

Lemma Sorted_on (P : edge → Prop) (R1 R2 : relation edge) l :
  (∀ a b, P a → P b → R1 a b → R2 a b) →
  Forall P l → Sorted R1 l → Sorted R2 l.
Proof.
  intros Himpl HP Hs. induction Hs as [|x l Hl IH Hx]; [constructor|].
  apply Forall_cons in HP as [HPx HPl]. constructor; [by apply IH|].
  destruct Hx as [|y l' Hxy]; constructor.
  apply Forall_cons in HPl as [HPy _]. by apply Himpl.
Qed.

Lemma weighted_outgoing_order es node :
  canonical_order es →
  Sorted dst_weight_le (filter (λ e, is_weighted e = true) (outgoing node es)).
Proof.
  intros Hes.
  apply (Sorted_on (λ e, src e = node ∧ is_weighted e = true) canonical_le).
  - intros a b [Ha Hwa] [Hb Hwb]. unfold canonical_le, dst_weight_le, weight_le.
    destruct a, b; simpl in *; try done; lia.
  - apply Forall_forall. intros e. unfold outgoing.
    rewrite !list_elem_of_filter. tauto.
  - eapply (Sorted_sublist canonical_le); [|done].
    etrans; [apply sublist_filter|apply sublist_filter].
Qed.

(** The test case "Output Operator", run on the model: the text is the one
    the test expects.  Under node 3 the edge of weight 2 precedes the edge of
    weight -8. *)
Example print_graph_test :
  ∃ g, insert_all output_test_insertions graph_default = Some g
       ∧ print_graph EmptyString g = expected_output.
Proof. eexists. split; vm_compute; reflexivity. Qed.

(** C9 as stated fails: listing the weighted edges of a node by ascending
    weight is not what is printed, even for a graph that satisfies every
    invariant.  Node 1 of [fan_graph] prints (1→2, 10) before (1→3, 5). *)
Lemma print_graph_not_by_weight :
  ¬ ∀ g, graph_invariant g →
         print_graph EmptyString g = rendering ascending_by_weight g.
Proof.
  intros Hclaim. specialize (Hclaim fan_graph).
  assert (graph_invariant fan_graph) as Hinv.
  { split; simpl.
    - compute_done.
    - intros e He. repeat (apply elem_of_cons in He as [->|He]);
        [simpl; set_solver..|by apply elem_of_nil in He].
    - compute_done. }
  specialize (Hclaim Hinv). vm_compute in Hclaim. discriminate Hclaim.
Qed.

(** C9, amended: the text is a newline, then for each node in ascending
    order the label, " (" and a newline, the lines of its unweighted outgoing
    edges, the lines of its weighted outgoing edges, both in edge-store order,
    then ")" and a newline.  A node without outgoing edges prints as an empty
    block.  An edge line is two spaces, the rendered edge and a newline;
    an unweighted edge renders as "src -> dst | U", a weighted one as
    "src -> dst | W | weight".  In a canonically ordered store the weighted
    edges of a node are listed by ascending dst, then ascending weight. *)
Theorem print_graph_correct (g : graph) :
  print_graph EmptyString g = rendering (λ es, es) g
  ∧ StronglySorted Z.lt (nodes g)
  ∧ (∀ v, v ∈ nodes g ↔ is_node g v = true)
  ∧ (∀ node,
       outgoing node (_edges g) = [] →
       node_block (λ es, es) (_edges g) node
       = pretty node +:+ " (" +:+ nl +:+ ")" +:+ nl)
  ∧ (∀ s d,
       print_edge (unweighted_edge s d)
       = pretty s +:+ " -> " +:+ pretty d +:+ " | U")
  ∧ (∀ s d w,
       print_edge (weighted_edge s d w)
       = pretty s +:+ " -> " +:+ pretty d +:+ " | W | " +:+ pretty w)
  ∧ (canonical_order (_edges g) →
     ∀ node,
       Sorted dst_weight_le
         (filter (λ e, is_weighted e = true) (outgoing node (_edges g)))).
Proof.
  repeat apply conj.
  - by rewrite print_graph_rendering.
  - apply set_iter_ascending.
  - intros v. unfold nodes. by rewrite set_iter_elem_of, is_node_true.
  - intros node Hout. unfold node_block. by rewrite Hout.
  - intros s d. unfold print_edge. by rewrite !string_app_assoc.
  - intros s d w. unfold print_edge. by rewrite !string_app_assoc.
  - intros Hg node. by apply weighted_outgoing_order.
Qed.

Lemma print_graph_correct_witness :
  node_block (λ es, es) (_edges fan_graph) 2
    = pretty 2 +:+ " (" +:+ nl +:+ ")" +:+ nl
  ∧ Sorted dst_weight_le
      (filter (λ e, is_weighted e = true) (outgoing 1 (_edges fan_graph))).
Proof.
  pose proof (print_graph_correct fan_graph)
    as (_ & _ & _ & Hempty & _ & _ & Horder).
  split.
  - apply Hempty. vm_compute. reflexivity.
  - apply Horder. compute_done.
Defined.

(** [fan_graph] is what the public operations build from [fan_insertions]. *)
Example fan_graph_built :
  insert_all fan_insertions graph_default = Some fan_graph.
Proof. vm_compute. reflexivity. Qed.

Example fan_graph_text :
  print_graph EmptyString fan_graph
  = nl +:+ string_concat
      ((λ line, line +:+ nl) <$>
       [ "1 ("; "  1 -> 2 | W | 10"; "  1 -> 3 | W | 5"; ")";
         "2 ("; ")"; "3 ("; ")" ]).
Proof. vm_compute. reflexivity. Qed.

(** * Further properties of the container *)

(** ** Edges *)

(** [edge_compare] is a strict weak order whose equivalence is
    [edge::operator==]: what [std::sort] requires of its comparator, and what
    makes [std::unique] after [std::sort] remove every duplicate. *)
Theorem edge_compare_strict_weak_order :
  (∀ a, edge_compare a a = false)
  ∧ (∀ a b, edge_compare a b = true → edge_compare b a = false)
  ∧ (∀ a b c, edge_compare a b = true → edge_compare b c = true →
              edge_compare a c = true)
  ∧ (∀ a b, edge_compare a b = false ∧ edge_compare b a = false
            ↔ edge_eq a b = true).
Proof.
  repeat apply conj.
  - intros a. by apply edge_compare_false.
  - intros a b [Hab _]%edge_compare_true. by apply edge_compare_false.
  - intros a b c Hab%edge_compare_true Hbc%edge_compare_true.
    apply edge_compare_true. by etrans.
  - intros a b. rewrite !edge_compare_false, edge_eq_true. split.
    + intros [Hba Hab]. by apply (anti_symm canonical_le).
    + by intros ->.
Qed.

Lemma edge_compare_strict_weak_order_witness :
  edge_compare (unweighted_edge 1 2) (weighted_edge 1 2 (-7)) = true
  ∧ edge_compare (weighted_edge 1 2 (-7)) (unweighted_edge 1 2) = false
  ∧ edge_compare (unweighted_edge 1 2) (weighted_edge 1 2 3) = true.
Proof.
  pose proof edge_compare_strict_weak_order as (_ & Hasym & Htrans & _).
  assert (edge_compare (unweighted_edge 1 2) (weighted_edge 1 2 (-7)) = true)
    as H1 by (vm_compute; reflexivity).
  assert (edge_compare (weighted_edge 1 2 (-7)) (weighted_edge 1 2 3) = true)
    as H2 by (vm_compute; reflexivity).
  split; [done|]. split; [by apply Hasym|]. by eapply Htrans.
Defined.

(** [edge::operator==] holds exactly when the two edges answer
    [is_weighted], [get_nodes] and [get_weight] alike; an edge is never equal
    to one of the other class. *)
Theorem edge_eq_observations (a b : edge) :
  edge_eq a b = true
  ↔ is_weighted a = is_weighted b
    ∧ get_nodes a = get_nodes b
    ∧ get_weight a = get_weight b.
Proof.
  rewrite edge_eq_true. split; [by intros ->|].
  unfold get_nodes. destruct a, b; simpl; naive_solver congruence.
Qed.

(** A clone is equal to its original under [operator==], is of the same
    class and renders to the same text. *)
Theorem clone_faithful (e : edge) :
  edge_eq (clone e) e = true
  ∧ edge_eq e (clone e) = true
  ∧ is_weighted (clone e) = is_weighted e
  ∧ get_nodes (clone e) = get_nodes e
  ∧ get_weight (clone e) = get_weight e
  ∧ print_edge (clone e) = print_edge e.
Proof. destruct e; simpl; rewrite ?Z.eqb_refl; done. Qed.

Lemma clone_id e : clone e = e.
Proof. by destruct e. Qed.

Lemma cloned_edges (es acc : list edge) :
  fold_left (λ edges edge, edges ++ [clone edge]) es acc = acc ++ es.
Proof.
  revert acc. induction es as [|e es IH]; intros acc; simpl.
  - by rewrite app_nil_r.
  - by rewrite IH, clone_id, <-app_assoc.
Qed.

(** The copy constructor and copy assignment produce a graph that compares
    equal to the source under [operator==], with the same nodes and the same
    edges at the same positions, whatever the target held before. *)
Theorem copy_equal (this other : graph) :
  graph_eq (graph_copy other) other = true
  ∧ graph_eq (copy_assign this other) other = true
  ∧ nodes (graph_copy other) = nodes other
  ∧ nodes (copy_assign this other) = nodes other
  ∧ (∀ it, iterator_deref (graph_copy other) it = iterator_deref other it)
  ∧ (∀ it, iterator_deref (copy_assign this other) it
           = iterator_deref other it).
Proof.
  assert (graph_copy other = other) as Hc.
  { unfold graph_copy. rewrite cloned_edges. by destruct other. }
  assert (copy_assign this other = other) as Ha.
  { unfold copy_assign. rewrite cloned_edges. by destruct other. }
  rewrite Hc, Ha. by rewrite graph_eq_refl.
Qed.

(** ** insert_node and empty *)

(** [insert_node] returns true exactly when the value was not a node; in
    both cases the value is a node afterwards, no other node and no edge
    changes, and inserting it again returns false and changes nothing. *)
Theorem insert_node_correct (g : graph) (v : Z) :
  (insert_node v g).1 = negb (is_node g v)
  ∧ is_node (insert_node v g).2 v = true
  ∧ (∀ u, u ≠ v → is_node (insert_node v g).2 u = is_node g u)
  ∧ _edges (insert_node v g).2 = _edges g
  ∧ insert_node v (insert_node v g).2 = (false, (insert_node v g).2).
Proof.
  assert (is_node (insert_node v g).2 v = true) as Hv.
  { apply is_node_true, insert_node_nodes. by left. }
  repeat apply conj; [|done| | |].
  - unfold insert_node, is_node. by case_bool_decide.
  - intros u Hu. unfold is_node. apply bool_decide_ext.
    rewrite insert_node_nodes. naive_solver.
  - apply insert_node_edges.
  - unfold is_node in Hv. apply bool_decide_eq_true in Hv.
    unfold insert_node at 1. by rewrite bool_decide_eq_true_2.
Qed.



(** ** is_connected, edges and connections *)

(** With both nodes present [is_connected] returns, and returns true exactly
    when some edge, weighted or not, leads from src to dst. *)
Theorem is_connected_correct (g : graph) (s d : Z) :
  is_node g s = true → is_node g d = true →
  ∃ b, is_connected g s d = Returned b
       ∧ (b = true ↔ ∃ e, e ∈ _edges g ∧ src e = s ∧ dst e = d).
Proof.
  intros Hs Hd. unfold is_connected. rewrite Hs, Hd. simpl.
  eexists. split; [done|]. rewrite std_any_of_true.
  split; intros (e & He & Hsd); exists e; (split; [done|]).
  - apply andb_true_iff in Hsd. by rewrite !Z.eqb_eq in Hsd.
  - destruct Hsd as [-> ->]. by rewrite !Z.eqb_refl.
Qed.

Lemma is_connected_correct_witness :
  ∃ b, is_connected merge_test_graph 1 3 = Returned b
       ∧ (b = true ↔ ∃ e, e ∈ _edges merge_test_graph ∧ src e = 1 ∧ dst e = 3).
Proof.
  apply (is_connected_correct merge_test_graph 1 3);
    vm_compute; reflexivity.
Defined.

Lemma collected_edges (s d : Z) (es acc : list edge) :
  fold_left (λ result edge,
               if (src edge =? s) && (dst edge =? d)
               then result ++ [clone edge] else result)
            es acc
  = acc ++ filter (λ e, src e = s ∧ dst e = d) es.
Proof.
  revert acc. induction es as [|e es IH]; intros acc; simpl.
  - by rewrite app_nil_r.
  - rewrite IH.
    destruct (Z.eqb_spec (src e) s) as [Hs|Hs],
             (Z.eqb_spec (dst e) d) as [Hd|Hd]; simpl.
    + rewrite filter_cons_True by done. by rewrite clone_id, <-app_assoc.
    + by rewrite filter_cons_False by tauto.
    + by rewrite filter_cons_False by tauto.
    + by rewrite filter_cons_False by tauto.
Qed.

(** With both nodes present [edges] returns the stored edges from src to
    dst, each as often as it is stored, unweighted before weighted and the
    weighted ones by ascending weight.  When the store is in canonical order
    the result is the store with the other edges left out.  It is non-empty
    exactly when [is_connected] answers true. *)
Theorem edges_correct (g : graph) (s d : Z) :
  is_node g s = true → is_node g d = true →
  ∃ l, edges g s d = Returned l
       ∧ l ≡ₚ filter (λ e, src e = s ∧ dst e = d) (_edges g)
       ∧ (∀ e, e ∈ l ↔ e ∈ _edges g ∧ src e = s ∧ dst e = d)
       ∧ Sorted (λ a b, is_weighted a = false
                        ∨ (is_weighted b = true ∧ weight_le a b)) l
       ∧ (canonical_order (_edges g) →
          l = filter (λ e, src e = s ∧ dst e = d) (_edges g))
       ∧ is_connected g s d = Returned (bool_decide (l ≠ [])).
Proof.
  intros Hs Hd. unfold edges. rewrite Hs, Hd. simpl.
  rewrite collected_edges. simpl. eexists. split; [done|].
  set (block := filter (λ e, src e = s ∧ dst e = d) (_edges g)).
  assert (∀ e, e ∈ std_sort edge_compare block
               ↔ e ∈ _edges g ∧ src e = s ∧ dst e = d) as Hin.
  { intros e. rewrite std_sort_elem_of. unfold block.
    rewrite list_elem_of_filter. tauto. }
  split; [apply std_sort_Permutation|]. split; [done|].
  split; [|split].
  - apply (Sorted_on (λ e, src e = s ∧ dst e = d) canonical_le).
    + intros a b [Ha Ha'] [Hb Hb']. unfold canonical_le, weight_le.
      destruct a, b; simpl in *; intros; try tauto; lia.
    + apply Forall_forall. intros e He. by apply Hin in He as [_ ?].
    + apply std_sort_canonical.
  - intros Hg. apply std_sort_canonical_id.
    eapply (Sorted_sublist canonical_le); [apply sublist_filter|done].
  - destruct (is_connected_correct g s d Hs Hd) as (b & -> & Hb).
    f_equal. apply eq_true_iff_eq. rewrite Hb, bool_decide_eq_true.
    split.
    + intros (e & He). apply Hin in He. intros Hnil. rewrite Hnil in He.
      by apply elem_of_nil in He.
    + intros Hne. destruct (std_sort edge_compare block) as [|e l] eqn:Hl;
        [done|].
      exists e. apply Hin. left.
Qed.

Lemma edges_correct_witness :
  ∃ l, edges merge_test_graph 1 2 = Returned l
       ∧ l ≡ₚ filter (λ e, src e = 1 ∧ dst e = 2) (_edges merge_test_graph)
       ∧ (∀ e, e ∈ l ↔ e ∈ _edges merge_test_graph ∧ src e = 1 ∧ dst e = 2)
       ∧ Sorted (λ a b, is_weighted a = false
                        ∨ (is_weighted b = true ∧ weight_le a b)) l
       ∧ (canonical_order (_edges merge_test_graph) →
          l = filter (λ e, src e = 1 ∧ dst e = 2) (_edges merge_test_graph))
       ∧ is_connected merge_test_graph 1 2 = Returned (bool_decide (l ≠ [])).
Proof.
  apply (edges_correct merge_test_graph 1 2); vm_compute; reflexivity.
Defined.

Lemma collected_destinations (s : Z) (es : list edge) (acc : gset Z) v :
  v ∈ fold_left (λ result edge,
                   if src edge =? s then {[ dst edge ]} ∪ result else result)
                es acc
  ↔ v ∈ acc ∨ ∃ e, e ∈ es ∧ src e = s ∧ dst e = v.
Proof.
  revert acc. induction es as [|e es IH]; intros acc; simpl.
  - split; [tauto|]. by intros [?|(e & ?%elem_of_nil & _)].
  - rewrite IH. setoid_rewrite elem_of_cons.
    destruct (Z.eqb_spec (src e) s) as [Hs|Hs].
    + rewrite elem_of_union, elem_of_singleton. naive_solver.
    + naive_solver.
Qed.

(** With src a node, [connections] returns the destinations of the edges
    leaving src, in strictly ascending order, each once; a node d is among
    them exactly when [is_connected] from src to d answers true. *)
Theorem connections_correct (g : graph) (s : Z) :
  is_node g s = true →
  ∃ l, connections g s = Returned l
       ∧ StronglySorted Z.lt l
       ∧ (∀ v, v ∈ l ↔ ∃ e, e ∈ _edges g ∧ src e = s ∧ dst e = v)
       ∧ (∀ d, is_node g d = true →
               (d ∈ l ↔ is_connected g s d = Returned true)).
Proof.
  intros Hs. unfold connections. rewrite Hs. simpl. eexists. split; [done|].
  split; [apply set_iter_ascending|].
  assert (∀ v,
            v ∈ set_iter
                  (fold_left
                     (λ (result : gset Z) edge,
                        if src edge =? s then {[ dst edge ]} ∪ result
                        else result) (_edges g) ∅)
            ↔ ∃ e, e ∈ _edges g ∧ src e = s ∧ dst e = v) as Hin.
  { intros v. rewrite set_iter_elem_of, collected_destinations.
    split; [|by right]. by intros [?%not_elem_of_empty|?]. }
  split; [done|]. intros d Hd. rewrite Hin.
  destruct (is_connected_correct g s d Hs Hd) as (b & -> & Hb).
  rewrite <-Hb. split; [by intros ->|by intros [= ->]].
Qed.

Lemma connections_correct_witness :
  ∃ l, connections merge_test_graph 1 = Returned l
       ∧ StronglySorted Z.lt l
       ∧ (∀ v, v ∈ l
               ↔ ∃ e, e ∈ _edges merge_test_graph ∧ src e = 1 ∧ dst e = v)
       ∧ (∀ d, is_node merge_test_graph d = true →
               (d ∈ l ↔ is_connected merge_test_graph 1 d = Returned true)).
Proof.
  apply (connections_correct merge_test_graph 1). vm_compute. reflexivity.
Defined.

(** ** find and the iterator *)

Lemma std_find_if_bound {A} (p : A → bool) (l : list A) :
  (std_find_if p l ≤ length l)%nat.
Proof. induction l as [|x l IH]; simpl; [done|]. destruct (p x); lia. Qed.

Lemma std_find_if_lookup {A} (p : A → bool) (l : list A) :
  (std_find_if p l < length l)%nat →
  ∃ x, l !! std_find_if p l = Some x ∧ p x = true.
Proof.
  induction l as [|x l IH]; simpl; [lia|].
  destruct (p x) eqn:Hp; [by exists x|]. intros Hlt. apply IH. lia.
Qed.

Lemma std_find_if_first {A} (p : A → bool) (l : list A) i x :
  (i < std_find_if p l)%nat → l !! i = Some x → p x = false.
Proof.
  revert i. induction l as [|y l IH]; intros i; simpl; [lia|].
  destruct (p y) eqn:Hp; [lia|]. destruct i as [|i]; simpl.
  - by intros _ [= <-].
  - intros Hlt. apply IH. lia.
Qed.

Lemma matches_view s d w e :
  matches s d w e → (src e, dst e, get_weight e) = (s, d, w).
Proof.
  unfold matches. destruct e, w; simpl; naive_solver congruence.
Qed.

(** [find] never throws.  It returns [end()] exactly when no stored edge
    matches; otherwise it returns the position of the first matching edge,
    and dereferencing it yields (src, dst, weight) as asked for. *)
Theorem find_correct (g : graph) (s d : Z) (w : option Z) :
  (find g s d w ≤ graph_end g)%nat
  ∧ (find g s d w = graph_end g ↔ ∀ e, e ∈ _edges g → ¬ matches s d w e)
  ∧ ((find g s d w < graph_end g)%nat →
     iterator_deref g (find g s d w) = Some (s, d, w))
  ∧ (∀ it e, (it < find g s d w)%nat → _edges g !! it = Some e →
             ¬ matches s d w e).
Proof.
  unfold find, graph_end. split; [|split; [|split]].
  - apply std_find_if_bound.
  - rewrite std_find_if_end. by setoid_rewrite edge_matches_false.
  - intros (e & He & Hm%edge_matches_true)%std_find_if_lookup.
    unfold iterator_deref. rewrite He. simpl. f_equal. by apply matches_view.
  - intros it e Hlt He. apply edge_matches_false.
    by eapply std_find_if_first.
Qed.

Lemma find_correct_witness :
  iterator_deref merge_test_graph (find merge_test_graph 1 3 (Some 15))
    = Some (1, 3, Some 15)
  ∧ ¬ matches 1 3 (Some 15) (weighted_edge 1 2 10).
Proof.
  pose proof (find_correct merge_test_graph 1 3 (Some 15))
    as (_ & _ & Hderef & Hfirst).
  split.
  - apply Hderef. vm_compute. lia.
  - apply (Hfirst 0%nat); [vm_compute; lia|reflexivity].
Defined.

(** When every edge joins two nodes, [find] with a src or dst that is not a
    node returns [end()]; unlike the other lookups it does not throw. *)
Theorem find_missing_node (g : graph) (s d : Z) (w : option Z) :
  (∀ e, e ∈ _edges g → src e ∈ _nodes g ∧ dst e ∈ _nodes g) →
  is_node g s = false ∨ is_node g d = false →
  find g s d w = graph_end g.
Proof.
  intros Hends Hmissing. apply find_correct.
  intros e He (Hs & Hd & _). destruct (Hends e He) as [Hsrc Hdst].
  rewrite !is_node_false in Hmissing. subst. tauto.
Qed.

Lemma find_missing_node_witness :
  find single_edge_graph 1 7 (Some 10) = graph_end single_edge_graph.
Proof.
  apply (find_missing_node single_edge_graph 1 7 (Some 10)).
  - intros e He. apply elem_of_cons in He as [->|He];
      [simpl; set_solver|by apply elem_of_nil in He].
  - right. vm_compute. reflexivity.
Defined.



(** ** The invariants under the mutating operations *)

Lemma make_edge_nodes s d w :
  src (make_edge s d w) = s ∧ dst (make_edge s d w) = d.
Proof. by destruct w. Qed.

Lemma matches_make_edge s d w e : matches s d w e ↔ e = make_edge s d w.
Proof.
  unfold matches. destruct e, w; simpl; naive_solver congruence.
Qed.

(** [insert_edge] keeps the invariants: no duplicate edge, every edge between
    two nodes, canonical order; whether it throws, refuses or inserts. *)
Theorem insert_edge_invariant (g : graph) (s d : Z) (w : option Z) :
  graph_invariant g → graph_invariant (insert_edge s d w g).2.
Proof.
  intros Hg. destruct (negb (is_node g s) || negb (is_node g d)) eqn:Hguard.
  { unfold insert_edge. by rewrite Hguard. }
  apply guard_passes in Hguard as [Hs Hd].
  destruct (decide (make_edge s d w ∈ _edges g)) as [Hin|Hin].
  { by rewrite insert_edge_duplicate. }
  rewrite insert_edge_fresh by done. destruct Hg as [Hnd Hends Hord].
  split; simpl.
  - rewrite std_sort_Permutation. apply NoDup_app. split; [done|].
    split; [|apply NoDup_singleton]. by intros x Hx ->%list_elem_of_singleton.
  - intros e. rewrite std_sort_elem_of, elem_of_app, list_elem_of_singleton.
    intros [He| ->]; [by apply Hends|].
    destruct (make_edge_nodes s d w) as [-> ->]. by rewrite <-!is_node_true.
  - apply std_sort_canonical.
Qed.

Lemma insert_edge_invariant_witness :
  graph_invariant (insert_edge 2 1 None two_edge_graph).2.
Proof.
  apply (insert_edge_invariant two_edge_graph 2 1 None). split; simpl.
  - compute_done.
  - intros e He. repeat (apply elem_of_cons in He as [->|He]);
      [simpl; set_solver..|by apply elem_of_nil in He].
  - compute_done.
Defined.

(** [erase_node] keeps the invariants: the edges of the erased node go with
    it, so no edge is left naming a value that is not a node. *)
Theorem erase_node_invariant (g : graph) (v : Z) :
  graph_invariant g → graph_invariant (erase_node v g).2.
Proof.
  intros Hg. unfold erase_node. case_match; [done|].
  destruct Hg as [Hnd Hends Hord]. split; simpl.
  - eapply sublist_NoDup; [done|apply std_remove_if_sublist].
  - intros e [He [Hsrc Hdst]%incident_false]%std_remove_if_elem_of.
    destruct (Hends e He). set_solver.
  - eapply (Sorted_sublist canonical_le); [apply std_remove_if_sublist|done].
Qed.

Lemma erase_node_invariant_witness :
  graph_invariant (erase_node 1 two_edge_graph).2.
Proof.
  apply (erase_node_invariant two_edge_graph 1). split; simpl.
  - compute_done.
  - intros e He. repeat (apply elem_of_cons in He as [->|He]);
      [simpl; set_solver..|by apply elem_of_nil in He].
  - compute_done.
Defined.

(** [erase_edge] keeps the invariants. *)
Theorem erase_edge_invariant (g : graph) (s d : Z) (w : option Z) :
  graph_invariant g → graph_invariant (erase_edge s d w g).2.
Proof.
  intros Hg. unfold erase_edge. repeat case_match; simpl; try done.
  destruct Hg as [Hnd Hends Hord]. split; simpl.
  - eapply sublist_NoDup; [done|apply std_remove_if_sublist].
  - intros e [He _]%std_remove_if_elem_of. by apply Hends.
  - eapply (Sorted_sublist canonical_le); [apply std_remove_if_sublist|done].
Qed.

Lemma erase_edge_invariant_witness :
  graph_invariant (erase_edge 1 2 (Some 10) two_edge_graph).2.
Proof.
  apply (erase_edge_invariant two_edge_graph 1 2 (Some 10)). split; simpl.
  - compute_done.
  - intros e He. repeat (apply elem_of_cons in He as [->|He]);
      [simpl; set_solver..|by apply elem_of_nil in He].
  - compute_done.
Defined.

Lemma rewritten_nodes old new e e' (nodes : gset Z) :
  rewritten old new e e' → new ∈ nodes → src e ∈ nodes → dst e ∈ nodes →
  (src e' = new ∨ (src e' ≠ old ∧ src e' ∈ nodes))
  ∧ (dst e' = new ∨ (dst e' ≠ old ∧ dst e' ∈ nodes)).
Proof.
  intros (-> & -> & _) Hnew Hsrc Hdst. split; case_decide; auto.
Qed.

(** [merge_replace_node] onto a different node keeps the invariants. *)
Theorem merge_replace_node_invariant (g : graph) (old new : Z) :
  old ≠ new →
  graph_invariant g → graph_invariant (merge_replace_node old new g).2.
Proof.
  intros Hne Hg.
  destruct (negb (is_node g old) || negb (is_node g new)) eqn:Hguard.
  { unfold merge_replace_node. by rewrite Hguard. }
  apply guard_passes in Hguard as [Ho Hn].
  rewrite merge_replace_node_returns by done.
  destruct Hg as [Hnd Hends Hord]. split; simpl.
  - apply strict_order_NoDup, merged_edges_strict.
  - intros e' (e & He & Hrw)%merged_edges_elem_of.
    destruct (Hends e He) as [Hsrc Hdst]. apply is_node_true in Hn.
    destruct (rewritten_nodes old new e e' (_nodes g) Hrw Hn Hsrc Hdst)
      as [Hs Hd].
    rewrite !elem_of_difference, !elem_of_singleton.
    split; [destruct Hs as [->|[? ?]]|destruct Hd as [->|[? ?]]];
      by auto.
  - apply strict_order_canonical, merged_edges_strict.
Qed.

Lemma merge_replace_node_invariant_witness :
  graph_invariant (merge_replace_node 1 2 two_edge_graph).2.
Proof.
  apply (merge_replace_node_invariant two_edge_graph 1 2); [done|].
  split; simpl.
  - compute_done.
  - intros e He. repeat (apply elem_of_cons in He as [->|He]);
      [simpl; set_solver..|by apply elem_of_nil in He].
  - compute_done.
Defined.

Lemma redirect_same v e : redirect v v e = e.
Proof.
  apply (rewritten_unique v v e); [apply redirect_rewritten|].
  unfold rewritten. by repeat case_decide.
Qed.

(** [merge_replace_node] of a node onto itself passes the guard, rewrites
    nothing and then erases the node: the node is gone while every edge,
    those naming it included, stays in the store. *)
Theorem merge_replace_node_self (g : graph) (v : Z) :
  is_node g v = true →
  ∃ g', merge_replace_node v v g = (Returned (), g')
        ∧ is_node g' v = false
        ∧ (∀ e, e ∈ _edges g' ↔ e ∈ _edges g)
        ∧ (∀ u, u ≠ v → is_node g' u = is_node g u).
Proof.
  intros Hv. eexists. split; [by apply merge_replace_node_returns|].
  split; [apply is_node_false; simpl; set_solver|]. split.
  - intros e. simpl. rewrite merged_edges_elem_of. split.
    + intros (e0 & He0 & Hrw).
      by rewrite (rewritten_unique v v e0 e e0 Hrw)
        by (rewrite <-(redirect_same v e0) at 2; apply redirect_rewritten).
    + intros He. exists e. split; [done|].
      rewrite <-(redirect_same v e) at 2. apply redirect_rewritten.
  - intros u Hu. unfold is_node. apply bool_decide_ext. simpl. set_solver.
Qed.

Lemma merge_replace_node_self_witness :
  ∃ g', merge_replace_node 1 1 single_edge_graph = (Returned (), g')
        ∧ is_node g' 1 = false
        ∧ (∀ e, e ∈ _edges g' ↔ e ∈ _edges single_edge_graph)
        ∧ (∀ u, u ≠ 1 → is_node g' u = is_node single_edge_graph u).
Proof.
  apply (merge_replace_node_self single_edge_graph 1).
  vm_compute. reflexivity.
Defined.

(** ** replace_node: what it keeps, and renaming back *)

Lemma redirect_back old new e :
  src e ≠ new → dst e ≠ new → redirect new old (redirect old new e) = e.
Proof.
  intros Hs Hd. apply (rewritten_unique new old (redirect old new e));
    [apply redirect_rewritten|].
  destruct (redirect_rewritten old new e) as (Hs' & Hd' & Hw').
  unfold rewritten. rewrite Hs', Hd', Hw'.
  repeat case_decide; try done; congruence.
Qed.

Lemma replace_node_returns_true g old new g' :
  replace_node old new g = (Returned true, g') →
  is_node g old = true ∧ is_node g new = false
  ∧ g' = {| _nodes := {[ new ]} ∪ _nodes g ∖ {[ old ]};
            _edges := map (redirect old new) (_edges g) |}.
Proof.
  unfold replace_node. destruct (is_node g old), (is_node g new); simpl;
    intros; by simplify_eq.
Qed.

(** A successful [replace_node] on a graph that satisfies the invariants
    leaves no duplicate edge and no edge naming a value that is not a node
    (the canonical order is another matter). *)
Theorem replace_node_invariant (g g' : graph) (old new : Z) :
  graph_invariant g →
  replace_node old new g = (Returned true, g') →
  NoDup (_edges g')
  ∧ ∀ e, e ∈ _edges g' → src e ∈ _nodes g' ∧ dst e ∈ _nodes g'.
Proof.
  intros [Hnd Hends _] (Ho & Hn & ->)%replace_node_returns_true. simpl.
  apply is_node_false in Hn.
  assert (∀ e, e ∈ _edges g → src e ≠ new ∧ dst e ≠ new) as Hfresh.
  { intros e He. destruct (Hends e He). split; by intros <-. }
  change (map (redirect old new) (_edges g))
    with (redirect old new <$> _edges g).
  split.
  - apply NoDup_fmap_2_strong; [|done]. intros a b Ha Hb Hab.
    destruct (Hfresh a Ha), (Hfresh b Hb).
    rewrite <-(redirect_back old new a), <-(redirect_back old new b) by done.
    by rewrite Hab.
  - intros e' (e & -> & He)%list_elem_of_fmap.
    destruct (Hends e He) as [Hsrc Hdst].
    destruct (redirect_rewritten old new e) as (-> & -> & _).
    rewrite !elem_of_union, !elem_of_difference, !elem_of_singleton.
    split; case_decide; auto.
Qed.

Lemma replace_node_invariant_witness :
  let g' := (replace_node 1 5 two_edge_graph).2 in
  NoDup (_edges g')
  ∧ ∀ e, e ∈ _edges g' → src e ∈ _nodes g' ∧ dst e ∈ _nodes g'.
Proof.
  apply (replace_node_invariant two_edge_graph _ 1 5).
  - split; simpl.
    + compute_done.
    + intros e He. repeat (apply elem_of_cons in He as [->|He]);
        [simpl; set_solver..|by apply elem_of_nil in He].
    + compute_done.
  - vm_compute. reflexivity.
Defined.

(** Renaming a node and renaming it back restores the graph, edge store
    order included, when every edge joins two nodes. *)
Theorem replace_node_round_trip (g g' : graph) (old new : Z) :
  (∀ e, e ∈ _edges g → src e ∈ _nodes g ∧ dst e ∈ _nodes g) →
  replace_node old new g = (Returned true, g') →
  replace_node new old g' = (Returned true, g).
Proof.
  intros Hends (Ho & Hn & ->)%replace_node_returns_true.
  apply is_node_true in Ho. apply is_node_false in Hn.
  assert (old ≠ new) as Hne by (by intros ->).
  unfold replace_node.
  assert (is_node {| _nodes := {[new]} ∪ _nodes g ∖ {[old]};
                     _edges := map (redirect old new) (_edges g) |} new
          = true) as -> by (apply is_node_true; simpl; set_solver).
  assert (is_node {| _nodes := {[new]} ∪ _nodes g ∖ {[old]};
                     _edges := map (redirect old new) (_edges g) |} old
          = false) as -> by (apply is_node_false; simpl; set_solver).
  simpl. f_equal. destruct g as [ns es]. simpl in *. f_equal.
  - apply set_eq. intros v.
    rewrite !elem_of_union, !elem_of_difference, !elem_of_union,
      !elem_of_difference, !elem_of_singleton.
    destruct (decide (v = old)) as [->|]; [tauto|].
    destruct (decide (v = new)) as [->|]; tauto.
  - rewrite map_map. rewrite <-(map_id es) at 2. apply map_ext_in.
    intros e He%list_elem_of_In. destruct (Hends e He).
    apply redirect_back; by intros <-.
Qed.

Lemma replace_node_round_trip_witness :
  replace_node 5 1 (replace_node 1 5 two_edge_graph).2
  = (Returned true, two_edge_graph).
Proof.
  apply (replace_node_round_trip two_edge_graph _ 1 5).
  - intros e He. repeat (apply elem_of_cons in He as [->|He]);
      [simpl; set_solver..|by apply elem_of_nil in He].
  - vm_compute. reflexivity.
Defined.

(** ** Inserting and erasing *)

Lemma insert_edge_returns g s d w b g' :
  insert_edge s d w g = (Returned b, g') →
  is_node g s = true ∧ is_node g d = true
  ∧ ((b = false ∧ g' = g ∧ make_edge s d w ∈ _edges g)
     ∨ (b = true ∧ (make_edge s d w ∉ _edges g)
        ∧ g' = {| _nodes := _nodes g;
                  _edges :=
                    std_sort edge_compare (_edges g ++ [make_edge s d w]) |})).
Proof.
  intros Hins.
  destruct (negb (is_node g s) || negb (is_node g d)) eqn:Hguard.
  { unfold insert_edge in Hins. by rewrite Hguard in Hins. }
  apply guard_passes in Hguard as [Hs Hd]. split; [done|]. split; [done|].
  destruct (decide (make_edge s d w ∈ _edges g)) as [Hin|Hin].
  - rewrite insert_edge_duplicate in Hins by done. simplify_eq. by left.
  - rewrite insert_edge_fresh in Hins by done. simplify_eq. by right.
Qed.

Lemma insert_edge_stored g s d w b g' :
  insert_edge s d w g = (Returned b, g') →
  is_node g' s = true ∧ is_node g' d = true ∧ make_edge s d w ∈ _edges g'.
Proof.
  intros Hins. apply insert_edge_returns in Hins as (Hs & Hd & Hcases).
  destruct Hcases as [(-> & -> & Hin)|(-> & Hin & ->)]; [done|].
  split; [done|]. split; [done|]. simpl.
  rewrite std_sort_elem_of, elem_of_app, list_elem_of_singleton. by right.
Qed.

(** Once [insert_edge] has returned, whether true or false, the edge is
    there: inserting it again returns false and changes nothing, [find]
    returns a position before [end()] that dereferences to (src, dst,
    weight), and [is_connected] answers true. *)
Theorem insert_edge_then_lookup (g g' : graph) (s d : Z) (w : option Z)
    (b : bool) :
  insert_edge s d w g = (Returned b, g') →
  insert_edge s d w g' = (Returned false, g')
  ∧ (find g' s d w < graph_end g')%nat
  ∧ iterator_deref g' (find g' s d w) = Some (s, d, w)
  ∧ is_connected g' s d = Returned true.
Proof.
  intros (Hs & Hd & Hin)%insert_edge_stored.
  split; [by apply insert_edge_duplicate|].
  destruct (find_correct g' s d w) as (Hle & Hend & Hderef & _).
  assert (find g' s d w < graph_end g')%nat as Hlt.
  { destruct (decide (find g' s d w = graph_end g')) as [Heq|]; [|lia].
    destruct (proj1 Hend Heq _ Hin). by apply matches_make_edge. }
  split; [done|]. split; [by apply Hderef|].
  destruct (is_connected_correct g' s d Hs Hd) as (c & -> & Hc).
  f_equal. apply Hc. exists (make_edge s d w).
  by destruct (make_edge_nodes s d w).
Qed.

Lemma insert_edge_then_lookup_witness :
  let g' := (insert_edge 2 1 None two_edge_graph).2 in
  insert_edge 2 1 None g' = (Returned false, g')
  ∧ (find g' 2 1 None < graph_end g')%nat
  ∧ iterator_deref g' (find g' 2 1 None) = Some (2, 1, None)
  ∧ is_connected g' 2 1 = Returned true.
Proof.
  apply (insert_edge_then_lookup two_edge_graph _ 2 1 None true).
  vm_compute. reflexivity.
Defined.

(** Once [erase_edge] has returned, whether true or false, [find] for the
    same src, dst and weight returns [end()], and erasing again returns
    false and changes nothing. *)
Theorem erase_edge_then_lookup (g g' : graph) (s d : Z) (w : option Z)
    (b : bool) :
  erase_edge s d w g = (Returned b, g') →
  find g' s d w = graph_end g'
  ∧ erase_edge s d w g' = (Returned false, g').
Proof.
  intros Herase.
  destruct (negb (is_node g s) || negb (is_node g d)) eqn:Hguard.
  { unfold erase_edge in Herase. by rewrite Hguard in Herase. }
  assert (_nodes g' = _nodes g
          ∧ ∀ e, e ∈ _edges g' → ¬ matches s d w e) as [Hn Hnone].
  { unfold erase_edge in Herase. rewrite Hguard in Herase.
    destruct (Nat.eqb_spec
                (length (std_remove_if (edge_matches s d w) (_edges g)))
                (length (_edges g))) as [Hlen|Hlen];
      simpl in Herase; simplify_eq; simpl.
    - split; [done|]. intros e He. apply edge_matches_false.
      by apply (proj1 (std_remove_if_length _ _) Hlen).
    - split; [done|].
      by intros e [_ ?%edge_matches_false]%std_remove_if_elem_of. }
  split; [by apply find_correct|].
  assert (negb (is_node g' s) || negb (is_node g' d) = false) as Hguard'
    by (unfold is_node in *; by rewrite Hn).
  unfold erase_edge. rewrite Hguard'.
  rewrite std_remove_if_none; [by rewrite Nat.eqb_refl|].
  intros e He. by apply edge_matches_false, Hnone.
Qed.

Lemma erase_edge_then_lookup_witness :
  let g' := (erase_edge 1 2 (Some 10) two_edge_graph).2 in
  find g' 1 2 (Some 10) = graph_end g'
  ∧ erase_edge 1 2 (Some 10) g' = (Returned false, g').
Proof.
  apply (erase_edge_then_lookup two_edge_graph _ 1 2 (Some 10) true).
  vm_compute. reflexivity.
Defined.

(** Inserting a new edge into a graph whose store is canonically ordered and
    duplicate-free, then erasing it, restores the graph. *)
Theorem insert_erase_edge_round_trip (g g' : graph) (s d : Z) (w : option Z) :
  canonical_order (_edges g) → NoDup (_edges g) →
  insert_edge s d w g = (Returned true, g') →
  erase_edge s d w g' = (Returned true, g).
Proof.
  intros Hord Hnd Hins.
  apply insert_edge_returns in Hins as (Hs & Hd & Hcases).
  destruct Hcases as [(? & _)|(_ & Hin & ->)]; [done|].
  set (new_edge := make_edge s d w) in *.
  set (sorted := std_sort edge_compare (_edges g ++ [new_edge])).
  assert (std_remove_if (edge_matches s d w) sorted = _edges g) as Hkept.
  { apply strict_order_unique.
    - apply canonical_NoDup_strict.
      + eapply (Sorted_sublist canonical_le);
          [apply std_remove_if_sublist|apply std_sort_canonical].
      + eapply sublist_NoDup; [|apply std_remove_if_sublist].
        unfold sorted. rewrite std_sort_Permutation. apply NoDup_app.
        split; [done|]. split; [|apply NoDup_singleton].
        by intros x Hx ->%list_elem_of_singleton.
    - by apply canonical_NoDup_strict.
    - intros e. rewrite std_remove_if_elem_of, edge_matches_false.
      unfold sorted.
      rewrite std_sort_elem_of, elem_of_app, list_elem_of_singleton.
      rewrite matches_make_edge. fold new_edge. split.
      + by intros [[?|?] ?].
      + intros He. split; [by left|]. by intros ->. }
  unfold erase_edge, is_node in *. simpl. rewrite Hs, Hd. simpl.
  fold new_edge. fold sorted. rewrite Hkept.
  assert (length sorted = S (length (_edges g))) as ->.
  { unfold sorted. rewrite std_sort_length, length_app. simpl. lia. }
  destruct (Nat.eqb_spec (length (_edges g)) (S (length (_edges g))));
    [lia|]. simpl. by destruct g.
Qed.

Lemma insert_erase_edge_round_trip_witness :
  erase_edge 2 1 None (insert_edge 2 1 None two_edge_graph).2
  = (Returned true, two_edge_graph).
Proof.
  apply (insert_erase_edge_round_trip two_edge_graph _ 2 1 None).
  - compute_done.
  - compute_done.
  - vm_compute. reflexivity.
Defined.

(** Inserting a new node and erasing it again restores the graph, when every
    edge joins two nodes. *)
Theorem insert_erase_node_round_trip (g : graph) (v : Z) :
  (∀ e, e ∈ _edges g → src e ∈ _nodes g ∧ dst e ∈ _nodes g) →
  is_node g v = false →
  (insert_node v g).1 = true
  ∧ erase_node v (insert_node v g).2 = (true, g).
Proof.
  intros Hends Hv. apply is_node_false in Hv.
  unfold insert_node. rewrite bool_decide_eq_false_2 by done. simpl.
  split; [done|]. unfold erase_node.
  assert (is_node {| _nodes := {[v]} ∪ _nodes g; _edges := _edges g |} v
          = true) as -> by (apply is_node_true; simpl; set_solver).
  simpl. f_equal. destruct g as [ns es]. simpl in *. f_equal.
  - apply set_eq. intros u.
    rewrite elem_of_difference, elem_of_union, elem_of_singleton.
    split; [tauto|]. intros Hu. split; [by right|]. by intros ->.
  - apply std_remove_if_none. intros e He. apply incident_false.
    destruct (Hends e He). split; by intros <-.
Qed.

Lemma insert_erase_node_round_trip_witness :
  (insert_node 9 two_edge_graph).1 = true
  ∧ erase_node 9 (insert_node 9 two_edge_graph).2 = (true, two_edge_graph).
Proof.
  apply (insert_erase_node_round_trip two_edge_graph 9).
  - intros e He. repeat (apply elem_of_cons in He as [->|He]);
      [simpl; set_solver..|by apply elem_of_nil in He].
  - vm_compute. reflexivity.
Defined.

(** ** Equality *)

(** [operator==] is an equivalence relation on graphs. *)
Theorem graph_eq_equivalence (g h k : graph) :
  graph_eq g g = true
  ∧ graph_eq g h = graph_eq h g
  ∧ (graph_eq g h = true → graph_eq h k = true → graph_eq g k = true).
Proof.
  split; [apply graph_eq_refl|]. split.
  - apply eq_true_iff_eq. rewrite !graph_eq_true. naive_solver.
  - rewrite !graph_eq_true. naive_solver congruence.
Qed.

Lemma graph_eq_equivalence_witness :
  graph_eq (graph_copy two_edge_graph) (copy_assign fan_graph two_edge_graph)
  = true.
Proof.
  destruct (graph_eq_equivalence (graph_copy two_edge_graph) two_edge_graph
              (copy_assign fan_graph two_edge_graph)) as (_ & _ & Htrans).
  apply Htrans; vm_compute; reflexivity.
Defined.

Lemma elem_of_partition (es : list edge) (e : edge) :
  e ∈ es ↔
  match e with
  | unweighted_edge s d => (s, d) ∈ unweighted_pairs es
  | weighted_edge s d w => (s, d, w) ∈ weighted_triples es
  end.
Proof.
  unfold unweighted_pairs, weighted_triples.
  destruct e as [s d w|s d]; rewrite list_elem_of_omap; split.
  - intros He. by exists (weighted_edge s d w).
  - intros ([] & He & Heq); by simplify_eq.
  - intros He. by exists (unweighted_edge s d).
  - intros ([] & He & Heq); by simplify_eq.
Qed.

(** For two graphs whose edge stores are canonically ordered and free of
    duplicates, [operator==] is true exactly when they have the same nodes
    and the same edges. *)
Theorem graph_eq_same_sets (gA gB : graph) :
  canonical_order (_edges gA) → NoDup (_edges gA) →
  canonical_order (_edges gB) → NoDup (_edges gB) →
  (graph_eq gA gB = true
   ↔ (∀ v, is_node gA v = is_node gB v)
     ∧ ∀ e, e ∈ _edges gA ↔ e ∈ _edges gB).
Proof.
  intros HoA HnA HoB HnB. rewrite graph_eq_true. split.
  - intros (Hn & Hu & Hw). split; [by unfold is_node; rewrite Hn|].
    intros e. rewrite !elem_of_partition. by rewrite Hu, Hw.
  - intros [Hn He].
    assert (_edges gA = _edges gB) as ->
      by (apply strict_order_unique; auto using canonical_NoDup_strict).
    split; [|done]. apply set_eq. intros v. rewrite <-!is_node_true.
    by rewrite Hn.
Qed.

Lemma graph_eq_same_sets_witness :
  graph_eq two_edge_graph fan_graph = true
  ↔ (∀ v, is_node two_edge_graph v = is_node fan_graph v)
    ∧ ∀ e, e ∈ _edges two_edge_graph ↔ e ∈ _edges fan_graph.
Proof.
  apply (graph_eq_same_sets two_edge_graph fan_graph); compute_done.
Defined.

(** ** Graphs built by insertion, and merged connections *)

Lemma insert_node_invariant g v :
  graph_invariant g → graph_invariant (insert_node v g).2.
Proof.
  intros [Hnd Hends Hord]. split; rewrite ?insert_node_edges; [done| |done].
  intros e He. rewrite !insert_node_nodes. destruct (Hends e He). auto.
Qed.

(** A graph built from the empty graph by [insert_node] and [insert_edge]
    calls that all returned satisfies the invariants: no duplicate edge,
    every edge between two nodes, canonical order. *)
Theorem built_graph_invariant (ops : list insertion) (g : graph) :
  insert_all ops graph_default = Some g → graph_invariant g.
Proof.
  assert (graph_invariant graph_default) as Hinit.
  { split; simpl; [constructor| |constructor].
    by intros e ?%elem_of_nil. }
  revert Hinit. generalize graph_default.
  induction ops as [|[v|s d w] ops IH]; intros g0 Hg0 Hall; simpl in Hall.
  - by simplify_eq.
  - eapply IH; [|done]. by apply insert_node_invariant.
  - pose proof (insert_edge_invariant g0 s d w Hg0) as Hinv.
    destruct (insert_edge s d w g0) as [[b|what] g1]; [|done].
    by eapply IH.
Qed.

Lemma built_graph_invariant_witness : graph_invariant two_edge_graph.
Proof.
  apply (built_graph_invariant forward_insertions).
  vm_compute. reflexivity.
Defined.

(** After [merge_replace_node old new], with old and new different nodes,
    new is connected to a third node exactly when old or new was. *)
Theorem merge_replace_node_connections (g : graph) (old new u : Z) :
  old ≠ new → u ≠ old → u ≠ new →
  is_node g old = true → is_node g new = true → is_node g u = true →
  (is_connected (merge_replace_node old new g).2 new u = Returned true
   ↔ is_connected g old u = Returned true
     ∨ is_connected g new u = Returned true).
Proof.
  intros Hne Huo Hun Ho Hn Hu.
  rewrite merge_replace_node_returns by done. simpl.
  set (g' := {| _nodes := _nodes g ∖ {[old]};
                _edges :=
                  std_unique edge_eq
                    (std_sort edge_compare
                       (map (redirect old new) (_edges g))) |}).
  assert (is_node g' new = true) as Hn'
    by (apply is_node_true; apply is_node_true in Hn; simpl; set_solver).
  assert (is_node g' u = true) as Hu'
    by (apply is_node_true; apply is_node_true in Hu; simpl; set_solver).
  destruct (is_connected_correct g' new u Hn' Hu') as (b' & -> & Hb').
  destruct (is_connected_correct g old u Ho Hu) as (bo & -> & Hbo).
  destruct (is_connected_correct g new u Hn Hu) as (bn & -> & Hbn).
  assert (b' = true ↔ bo = true ∨ bn = true) as Hiff.
  { rewrite Hb', Hbo, Hbn. subst g'. simpl.
    setoid_rewrite merged_edges_elem_of. split.
    - intros (e' & (e & He & Hs & Hd & _) & Hsrc & Hdst).
      rewrite Hsrc in Hs. rewrite Hdst in Hd.
      repeat case_decide; subst; try done; [left|right]; by exists e.
    - intros [(e & He & Hsrc & Hdst)|(e & He & Hsrc & Hdst)];
        exists (redirect old new e);
        destruct (redirect_rewritten old new e) as (Hs & Hd & Hw);
        (split; [by exists e|]); rewrite Hs, Hd;
        repeat case_decide; subst; done. }
  split.
  - intros [= ->]. destruct (proj1 Hiff eq_refl) as [->| ->]; auto.
  - intros [[= ->]|[= ->]]; f_equal; apply Hiff; auto.
Qed.

Lemma merge_replace_node_connections_witness :
  is_connected (merge_replace_node 1 2 merge_test_graph).2 2 3 = Returned true
  ↔ is_connected merge_test_graph 1 3 = Returned true
    ∨ is_connected merge_test_graph 2 3 = Returned true.
Proof.
  apply (merge_replace_node_connections merge_test_graph 1 2 3);
    first [lia | vm_compute; reflexivity].
Defined.
